(** * Base64 with selectable alphabets: a shallow embedding of lib/base64.c

    Two revisions of the kernel's Base64 routines are embedded side by side:
    - [Grp]: the revision that works on fixed groups (3 source bytes, 4
      symbols at a time);
    - [Acc]: the revision that keeps a running bit accumulator and consumes
      one byte or one symbol at a time.

    Conventions of the embedding.
    - A buffer is a [list Z]; every element is the value of one [u8] (or of
      one [char] read through a [u8] pointer), so [srclen] is the length of
      the list.
    - [u32] and [u8] conversions are written out as reductions modulo
      [2^32] and [2^8]; [s32] and [int] values are plain integers (the code
      never leaves their range), with the arithmetic right shift and the
      two's complement bit operations of [Z].
    - The destination buffer is the list of the elements stored through
      [*cp++] or [*bp++]; the returned length [cp - dst] is the length of
      that list, and decode's [-1] is [None]. *)

From Stdlib Require Import String Ascii ZArith List Lia Bool.
From Equations Require Import Equations.
Import ListNotations.

Local Open Scope Z_scope.

(** ** Integer conversions *)

Definition u8 (x : Z) : Z := x mod 2 ^ 8.
Definition u32 (x : Z) : Z := x mod 2 ^ 32.

(** A buffer element is a byte. *)
Definition is_byte (b : Z) : Prop := 0 <= b < 256.
Definition bytes (l : list Z) : Prop := Forall is_byte l.

(** The character codes of a string literal. *)
Definition chars (s : string) : list Z :=
  map (fun c => Z.of_nat (nat_of_ascii c)) (list_ascii_of_string s).

(** The padding character ['=']. *)
Definition PAD : Z := 61.

(** ** Variants and tables *)

Inductive base64_variant : Type :=
| BASE64_STD
| BASE64_URLSAFE
| BASE64_IMAP.

(** [char base64_tables[][65]]: 64 symbols and the terminating NUL. *)
Definition base64_tables (variant : base64_variant) : list Z :=
  match variant with
  | BASE64_STD =>
      chars "ABCDEFGHIJKLMNOPQRSTUVWXYZabcdefghijklmnopqrstuvwxyz0123456789+/" ++ [0]
  | BASE64_URLSAFE =>
      chars "ABCDEFGHIJKLMNOPQRSTUVWXYZabcdefghijklmnopqrstuvwxyz0123456789-_" ++ [0]
  | BASE64_IMAP =>
      chars "ABCDEFGHIJKLMNOPQRSTUVWXYZabcdefghijklmnopqrstuvwxyz0123456789+," ++ [0]
  end.

(** [base64_table[i]]. *)
Definition tbl_at (base64_table : list Z) (i : Z) : Z :=
  nth (Z.to_nat i) base64_table 0.

(** Array initialisers: [upd i v t] stores [v] at index [i]; [init_run i vs t]
    is the designator [[i] = v0, v1, ...], which stores [vs] at consecutive
    indices from [i] on. *)
Fixpoint upd (i : nat) (v : Z) (t : list Z) : list Z :=
  match t, i with
  | [], _ => []
  | _ :: t', O => v :: t'
  | x :: t', S i' => x :: upd i' v t'
  end.

Fixpoint init_run (i : nat) (vs : list Z) (t : list Z) : list Z :=
  match vs with
  | [] => t
  | v :: vs' => init_run (S i) vs' (upd i v t)
  end.

Definition code (c : ascii) : nat := nat_of_ascii c.

(** The macro [BASE64_REV_INIT(ch_62, ch_63)]; later designators win. *)
Definition BASE64_REV_INIT (ch_62 ch_63 : ascii) : list Z :=
  let t := repeat (-1) 256 in
  let t := init_run (code "A")
             [ 0;  1;  2;  3;  4;  5;  6;  7;  8;  9; 10; 11; 12;
              13; 14; 15; 16; 17; 18; 19; 20; 21; 22; 23; 24; 25] t in
  let t := init_run (code "a")
             [26; 27; 28; 29; 30; 31; 32; 33; 34; 35; 36; 37; 38;
              39; 40; 41; 42; 43; 44; 45; 46; 47; 48; 49; 50; 51] t in
  let t := init_run (code "0")
             [52; 53; 54; 55; 56; 57; 58; 59; 60; 61] t in
  let t := upd (code ch_62) 62 t in
  upd (code ch_63) 63 t.

(** [s8 base64_rev_maps[][256]]. *)
Definition base64_rev_maps (variant : base64_variant) : list Z :=
  match variant with
  | BASE64_STD => BASE64_REV_INIT "+" "/"
  | BASE64_URLSAFE => BASE64_REV_INIT "-" "_"
  | BASE64_IMAP => BASE64_REV_INIT "+" ","
  end.

(** [base64_rev_tables[c]] for a [u8] index [c]. *)
Definition rev_at (base64_rev_tables : list Z) (c : Z) : Z :=
  nth (Z.to_nat c) base64_rev_tables (-1).

(** ** The revision with fixed groups *)

Module Grp.

(** One pass of [while (srclen >= 3)]: 24 bits, four symbols. *)
Definition enc3 (base64_table : list Z) (s0 s1 s2 : Z) : list Z :=
  let ac := u32 (Z.lor (Z.lor (Z.shiftl s0 16) (Z.shiftl s1 8)) s2) in
  [ tbl_at base64_table (Z.shiftr ac 18);
    tbl_at base64_table (Z.land (Z.shiftr ac 12) 0x3f);
    tbl_at base64_table (Z.land (Z.shiftr ac 6) 0x3f);
    tbl_at base64_table (Z.land ac 0x3f) ].

(** [case 2] of the switch. *)
Definition enc2 (base64_table : list Z) (padding : bool) (s0 s1 : Z) : list Z :=
  let ac := u32 (Z.lor (Z.shiftl s0 16) (Z.shiftl s1 8)) in
  [ tbl_at base64_table (Z.shiftr ac 18);
    tbl_at base64_table (Z.land (Z.shiftr ac 12) 0x3f);
    tbl_at base64_table (Z.land (Z.shiftr ac 6) 0x3f) ]
  ++ (if padding then [PAD] else []).

(** [case 1] of the switch. *)
Definition enc1 (base64_table : list Z) (padding : bool) (s0 : Z) : list Z :=
  let ac := u32 (Z.shiftl s0 16) in
  [ tbl_at base64_table (Z.shiftr ac 18);
    tbl_at base64_table (Z.land (Z.shiftr ac 12) 0x3f) ]
  ++ (if padding then [PAD; PAD] else []).

Fixpoint encode_loop (base64_table : list Z) (padding : bool) (src : list Z)
  : list Z :=
  match src with
  | s0 :: s1 :: s2 :: src' =>
      enc3 base64_table s0 s1 s2 ++ encode_loop base64_table padding src'
  | [s0; s1] => enc2 base64_table padding s0 s1
  | [s0] => enc1 base64_table padding s0
  | [] => []
  end.

(** [base64_encode]: the characters stored in [dst]. *)
Definition base64_encode (src : list Z) (padding : bool)
    (variant : base64_variant) : list Z :=
  encode_loop (base64_tables variant) padding src.

(** The code after the loop of [base64_decode], entered with the current
    [srclen], [padding], [s] and the bytes stored so far. *)
Definition decode_tail (base64_rev_tables : list Z) (padding : bool)
    (srclen : Z) (s : list Z) (out : list Z) : option (list Z) :=
  if srclen =? 0 then Some out
  else if padding || (srclen =? 1) then None
  else
    let val := Z.lor (Z.shiftl (rev_at base64_rev_tables (nth 0 s 0)) 12)
                     (Z.shiftl (rev_at base64_rev_tables (nth 1 s 0)) 6) in
    let out := out ++ [u8 (Z.shiftr val 10)] in
    if srclen =? 2 then
      if Z.land (u32 val) 0x800003ff =? 0 then Some out else None
    else
      let val := Z.lor val (rev_at base64_rev_tables (nth 2 s 0)) in
      if Z.land (u32 val) 0x80000003 =? 0
      then Some (out ++ [u8 (Z.shiftr val 2)])
      else None.

(** [while (srclen >= 4)] followed by the tail; [s] is what is left of the
    input, so [srclen] is its length. *)
Fixpoint decode_loop (base64_rev_tables : list Z) (padding : bool)
    (s : list Z) (out : list Z) : option (list Z) :=
  match s with
  | s0 :: s1 :: s2 :: s3 :: s' =>
      let input0 := rev_at base64_rev_tables s0 in
      let input1 := rev_at base64_rev_tables s1 in
      let input2 := rev_at base64_rev_tables s2 in
      let input3 := rev_at base64_rev_tables s3 in
      let val := Z.lor (Z.lor (Z.lor (Z.shiftl input0 18) (Z.shiftl input1 12))
                              (Z.shiftl input2 6)) input3 in
      if val <? 0 then
        if negb padding || negb (Z.of_nat (length s) =? 4) || negb (s3 =? PAD)
        then None
        else decode_tail base64_rev_tables false
               (if s2 =? PAD then 2 else 3) s out
      else
        decode_loop base64_rev_tables padding s'
          (out ++ [u8 (Z.shiftr val 16); u8 (Z.shiftr val 8); u8 val])
  | _ => decode_tail base64_rev_tables padding (Z.of_nat (length s)) s out
  end.

(** [base64_decode]: [Some] of the bytes stored in [dst], or [None] for -1. *)
Definition base64_decode (src : list Z) (padding : bool)
    (variant : base64_variant) : option (list Z) :=
  decode_loop (base64_rev_maps variant) padding src [].

End Grp.

(** ** The revision with a bit accumulator *)

Module Acc.

(** [do { bits -= 6; *cp++ = ...; } while (bits >= 6);] returns the symbols
    stored and the final [bits]. *)
Equations? emit (base64_table : list Z) (ac bits : Z) : list Z * Z
  by wf (Z.to_nat bits) lt :=
  emit base64_table ac bits with Z_le_dec 6 (bits - 6) := {
    | left _ =>
        let r := emit base64_table ac (bits - 6) in
        (tbl_at base64_table (Z.land (Z.shiftr ac (bits - 6)) 0x3f) :: fst r,
         snd r)
    | right _ =>
        ([tbl_at base64_table (Z.land (Z.shiftr ac (bits - 6)) 0x3f)],
         bits - 6) }.
Proof. lia. Qed.

(** [while (bits < 0) { *cp++ = '='; bits += 2; }] *)
Equations? pad (bits : Z) : list Z by wf (Z.to_nat (- bits)) lt :=
  pad bits with Z_lt_dec bits 0 := {
    | left _ => PAD :: pad (bits + 2)
    | right _ => [] }.
Proof. lia. Qed.

(** The code after the [for] loop of [base64_encode]. *)
Definition encode_tail (base64_table : list Z) (padding : bool) (ac bits : Z)
  : list Z :=
  let '(last, bits) :=
    if bits =? 0 then ([], bits)
    else ([tbl_at base64_table (Z.land (u32 (Z.shiftl ac (6 - bits))) 0x3f)],
          bits - 6) in
  last ++ (if padding then pad bits else []).

(** The [for] loop over the source bytes, then the tail. *)
Fixpoint encode_loop (base64_table : list Z) (padding : bool) (src : list Z)
    (ac bits : Z) : list Z :=
  match src with
  | [] => encode_tail base64_table padding ac bits
  | b :: src' =>
      let ac := u32 (Z.lor (Z.shiftl ac 8) b) in
      let r := emit base64_table ac (bits + 8) in
      fst r ++ encode_loop base64_table padding src' ac (snd r)
  end.

(** [base64_encode]: the characters stored in [dst]. *)
Definition base64_encode (src : list Z) (padding : bool)
    (variant : base64_variant) : list Z :=
  encode_loop (base64_tables variant) padding src 0 0.

(** The [for] loop of [base64_decode] and the final check. *)
Fixpoint decode_loop (base64_rev_tables : list Z) (padding : bool)
    (src : list Z) (ac bits : Z) (out : list Z) : option (list Z) :=
  match src with
  | [] =>
      if Z.land ac (u32 (Z.shiftl 1 bits - 1)) =? 0 then Some out else None
  | c :: src' =>
      if padding && (c =? PAD) then
        let ac := u32 (Z.shiftl ac 6) in
        let bits := bits + 6 in
        let bits := if 8 <=? bits then bits - 8 else bits in
        decode_loop base64_rev_tables padding src' ac bits out
      else
        let ch := rev_at base64_rev_tables c in
        if ch =? -1 then None
        else
          let ac := u32 (Z.lor (Z.shiftl ac 6) ch) in
          let bits := bits + 6 in
          if 8 <=? bits then
            decode_loop base64_rev_tables padding src' ac (bits - 8)
              (out ++ [u8 (Z.shiftr ac (bits - 8))])
          else
            decode_loop base64_rev_tables padding src' ac bits out
  end.

(** [base64_decode]: [Some] of the bytes stored in [dst], or [None] for -1. *)
Definition base64_decode (src : list Z) (padding : bool)
    (variant : base64_variant) : option (list Z) :=
  decode_loop (base64_rev_maps variant) padding src 0 0 [].

End Acc.

(** * Notions used in the statements *)

(** The symbols for the values 62 and 63 of a variant. *)
Definition sym_62 (variant : base64_variant) : ascii :=
  match variant with
  | BASE64_STD => "+"
  | BASE64_URLSAFE => "-"
  | BASE64_IMAP => "+"
  end.

Definition sym_63 (variant : base64_variant) : ascii :=
  match variant with
  | BASE64_STD => "/"
  | BASE64_URLSAFE => "_"
  | BASE64_IMAP => ","
  end.

(** A 6-bit value, and an entry of a reverse table. *)
Definition sextet (r : Z) : Prop := 0 <= r < 64.
Definition rev_value (r : Z) : Prop := r = -1 \/ sextet r.

(** The four 6-bit indices of a group of three bytes. *)
Definition sx0 (a : Z) : Z := a / 4.
Definition sx1 (a b : Z) : Z := (a mod 4) * 16 + b / 16.
Definition sx2 (b c : Z) : Z := (b mod 16) * 4 + c / 64.
Definition sx3 (c : Z) : Z := c mod 64.

(** The three bytes of a group of four 6-bit values. *)
Definition by0 (r0 r1 : Z) : Z := r0 * 4 + r1 / 16.
Definition by1 (r1 r2 : Z) : Z := (r1 mod 16) * 16 + r2 / 4.
Definition by2 (r2 r3 : Z) : Z := (r2 mod 4) * 64 + r3.

(** The [s32] word [val] that the grouped decoder builds from four table
    values. *)
Definition val4 (r0 r1 r2 r3 : Z) : Z :=
  Z.lor (Z.lor (Z.lor (Z.shiftl r0 18) (Z.shiftl r1 12)) (Z.shiftl r2 6)) r3.

(** Rounded-up quotient. *)
Definition ceil_div (a b : Z) : Z := (a + b - 1) / b.

(** The length law of the encoders, for [n] source bytes. *)
Definition encoded_length (padding : bool) (n : Z) : Z :=
  if padding then 4 * ceil_div n 3 else ceil_div (n * 8) 6.

(** The number of bytes decoded without padding from [n] symbols. *)
Definition decoded_length (n : Z) : Z :=
  3 * (n / 4) + (if n mod 4 =? 2 then 1 else if n mod 4 =? 3 then 2 else 0).

(** For the reverse table [R]: [c] is not a symbol, and is not read as
    padding either. *)
Definition stray (R : list Z) (p : bool) (c : Z) : Prop :=
  rev_at R c = -1 /\ (p = false \/ c <> PAD).

(** For the reverse table [R]: [tail] is a final partial group whose filler
    bits are not all zero. Two symbols carry four filler bits and three
    symbols two, in the low bits of the last symbol; with padding enabled
    the group is filled up to four characters with ['=']. *)
Definition nonzero_filler (R : list Z) (padding : bool) (tail : list Z)
  : Prop :=
  match tail with
  | [a; b] => padding = false /\ Z.land (rev_at R b) 0xf <> 0
  | [a; b; c] => padding = false /\ Z.land (rev_at R c) 0x3 <> 0
  | [a; b; c; d] =>
      padding = true /\ d = PAD /\
      if c =? PAD
      then Z.land (rev_at R b) 0xf <> 0
      else Z.land (rev_at R c) 0x3 <> 0
  | _ => False
  end.

(** ['='] stands at index [i] of [s], and not as the last character or as
    the last but one followed by another ['=']. *)
Definition misplaced_pad (s : list Z) (i : nat) : Prop :=
  nth_error s i = Some PAD /\
  ~ (S i = List.length s \/
     (S (S i) = List.length s /\ nth_error s (S i) = Some PAD)).

(** [ch] is one of the 64 symbols of the variant. *)
Definition in_alphabet (variant : base64_variant) (ch : Z) : Prop :=
  exists i, 0 <= i < 64 /\ tbl_at (base64_tables variant) i = ch.

(** The standard symbols for 62 and 63 replaced by those of the variant. *)
Definition translate (variant : base64_variant) (ch : Z) : Z :=
  if ch =? Z.of_nat (code (sym_62 BASE64_STD))
  then Z.of_nat (code (sym_62 variant))
  else if ch =? Z.of_nat (code (sym_63 BASE64_STD))
       then Z.of_nat (code (sym_63 variant))
       else ch.

(** The number of ['='] after the symbols of [n] source bytes. *)
Definition pad_count (n : Z) : nat := Z.to_nat ((3 - n mod 3) mod 3).

(** * Sanity checks on concrete inputs *)

Example grp_encode_foo :
  Grp.base64_encode (chars "foo") true BASE64_STD = chars "Zm9v".
Proof. vm_compute. reflexivity. Qed.

Example acc_encode_foo :
  Acc.base64_encode (chars "foo") true BASE64_STD = chars "Zm9v".
Proof. vm_compute. reflexivity. Qed.

Example acc_encode_fo :
  Acc.base64_encode (chars "fo") true BASE64_STD = chars "Zm8=".
Proof. vm_compute. reflexivity. Qed.

Example acc_encode_f :
  Acc.base64_encode (chars "f") true BASE64_URLSAFE = chars "Zg==".
Proof. vm_compute. reflexivity. Qed.

Example grp_decode_foo :
  Grp.base64_decode (chars "Zm9v") true BASE64_STD = Some (chars "foo").
Proof. vm_compute. reflexivity. Qed.

Example acc_decode_foo :
  Acc.base64_decode (chars "Zm9v") true BASE64_STD = Some (chars "foo").
Proof. vm_compute. reflexivity. Qed.

Example grp_decode_bad_filler :
  Grp.base64_decode (chars "Zm9=") true BASE64_STD = None.
Proof. vm_compute. reflexivity. Qed.

Example acc_decode_bad_filler :
  Acc.base64_decode (chars "Zm9=") true BASE64_STD = Some (chars "fo").
Proof. vm_compute. reflexivity. Qed.

Example acc_decode_short :
  Acc.base64_decode (chars "Zg") true BASE64_STD = Some (chars "f").
Proof. vm_compute. reflexivity. Qed.

Example acc_decode_one_A :
  Acc.base64_decode (chars "A") false BASE64_STD = Some [].
Proof. vm_compute. reflexivity. Qed.

Example grp_decode_one_A :
  Grp.base64_decode (chars "A") false BASE64_STD = None.
Proof. vm_compute. reflexivity. Qed.

Example acc_decode_pads :
  Acc.base64_decode (chars "====") true BASE64_STD = Some [].
Proof. vm_compute. reflexivity. Qed.

Example grp_decode_slash_w :
  Grp.base64_decode (chars "/w") false BASE64_STD = Some [255]
  /\ Acc.base64_decode (chars "/w") false BASE64_STD = Some [255]
  /\ Grp.base64_decode (chars "/x") false BASE64_STD = None
  /\ Acc.base64_decode (chars "/x") false BASE64_STD = None.
Proof. vm_compute. repeat split. Qed.

(** * Bit operations as arithmetic *)

Section BitArith.

Lemma lor_disjoint_add (x b n : Z) :
  0 <= n -> x mod 2 ^ n = 0 -> 0 <= b < 2 ^ n -> Z.lor x b = x + b.
Proof.
  intros Hn Hx Hb.
  assert (Hl : Z.land x b = 0).
  { apply Z.bits_inj'. intros i Hi.
    rewrite Z.land_spec, Z.bits_0.
    destruct (Z_lt_dec i n) as [Hlt | Hge].
    - replace (Z.testbit x i) with (Z.testbit (x mod 2 ^ n) i)
        by (apply Z.mod_pow2_bits_low; lia).
      rewrite Hx, Z.bits_0. reflexivity.
    - replace b with (b mod 2 ^ n) by (apply Z.mod_small; lia).
      rewrite (Z.mod_pow2_bits_high b n i) by lia.
      apply andb_false_r. }
  rewrite <- Z.lxor_lor by exact Hl.
  symmetry. apply Z.add_nocarry_lxor. exact Hl.
Qed.

Lemma lor_shiftl_add (a b n : Z) :
  0 <= n -> 0 <= b < 2 ^ n -> Z.lor (Z.shiftl a n) b = a * 2 ^ n + b.
Proof.
  intros Hn Hb. rewrite Z.shiftl_mul_pow2 by lia.
  apply (lor_disjoint_add _ _ n); try assumption.
  apply Z.mod_mul. lia.
Qed.

Lemma land_63 (x : Z) : Z.land x 0x3f = x mod 64.
Proof. change 0x3f with (Z.ones 6). rewrite Z.land_ones by lia. reflexivity. Qed.

Lemma land_low (x m k : Z) :
  0 <= k -> 0 <= x < 2 ^ 31 -> Z.land (Z.ones 31) m = Z.ones k ->
  Z.land x m = x mod 2 ^ k.
Proof.
  intros Hk Hx Hm.
  replace x with (Z.land x (Z.ones 31)) at 1
    by (rewrite Z.land_ones by lia; apply Z.mod_small; lia).
  rewrite <- Z.land_assoc, Hm. apply Z.land_ones. lia.
Qed.

Lemma land_sign_nonzero (x m : Z) :
  Z.testbit x 31 = true -> Z.testbit m 31 = true -> Z.land (u32 x) m <> 0.
Proof.
  intros Hx Hm Heq.
  assert (H : Z.testbit (Z.land (u32 x) m) 31 = true).
  { rewrite Z.land_spec. unfold u32.
    rewrite Z.mod_pow2_bits_low by lia. rewrite Hx, Hm. reflexivity. }
  rewrite Heq, Z.bits_0 in H. discriminate.
Qed.

End BitArith.

(** Shifts by constants and masks become [*], [/] and [mod]. *)
Ltac arith_bits :=
  repeat rewrite land_63;
  repeat (rewrite Z.shiftr_div_pow2 by lia);
  repeat (rewrite Z.shiftl_mul_pow2 by lia).

(** * Bounded checks by computation *)

Lemma seq_check (P : nat -> bool) (n : nat) :
  forallb P (seq 0 n) = true -> forall k, (k < n)%nat -> P k = true.
Proof.
  intros H k Hk. rewrite forallb_forall in H. apply H.
  apply in_seq. lia.
Qed.

Lemma range_check (P : Z -> bool) (n : nat) :
  forallb (fun k => P (Z.of_nat k)) (seq 0 n) = true ->
  forall i, 0 <= i < Z.of_nat n -> P i = true.
Proof.
  intros H i Hi.
  replace i with (Z.of_nat (Z.to_nat i)) by lia.
  apply (seq_check (fun k => P (Z.of_nat k)) n H). lia.
Qed.

(** * The tables *)

Lemma rev_forward (v : base64_variant) (i : Z) :
  0 <= i < 64 ->
  rev_at (base64_rev_maps v) (tbl_at (base64_tables v) i) = i.
Proof.
  intros Hi. apply Z.eqb_eq.
  revert i Hi.
  apply (range_check
           (fun i => rev_at (base64_rev_maps v) (tbl_at (base64_tables v) i) =? i)
           64).
  destruct v; vm_compute; reflexivity.
Qed.

Lemma rev_values (v : base64_variant) (c : Z) :
  rev_at (base64_rev_maps v) c = -1 \/ 0 <= rev_at (base64_rev_maps v) c < 64.
Proof.
  unfold rev_at. set (k := Z.to_nat c). clearbody k.
  destruct (Nat.lt_ge_cases k 256) as [Hk | Hk].
  - pose proof
      (seq_check
         (fun k => let r := nth k (base64_rev_maps v) (-1) in
                   (r =? -1) || ((0 <=? r) && (r <? 64)))
         256) as H.
    cbv beta zeta in H.
    specialize (H ltac:(destruct v; vm_compute; reflexivity) k Hk).
    apply orb_true_iff in H. destruct H as [H | H].
    + left. apply Z.eqb_eq. exact H.
    + right. apply andb_true_iff in H. lia.
  - left. apply nth_overflow.
    replace (List.length (base64_rev_maps v)) with 256%nat
      by (destruct v; vm_compute; reflexivity).
    exact Hk.
Qed.

Lemma forward_rev (v : base64_variant) (c : Z) :
  0 <= c -> 0 <= rev_at (base64_rev_maps v) c ->
  tbl_at (base64_tables v) (rev_at (base64_rev_maps v) c) = c.
Proof.
  intros Hc. unfold rev_at.
  replace c with (Z.of_nat (Z.to_nat c)) at 3 by lia.
  set (k := Z.to_nat c). clearbody k.
  destruct (Nat.lt_ge_cases k 256) as [Hk | Hk].
  - pose proof
      (seq_check
         (fun k => let r := nth k (base64_rev_maps v) (-1) in
                   (r <? 0) || (tbl_at (base64_tables v) r =? Z.of_nat k))
         256) as H.
    cbv beta zeta in H.
    specialize (H ltac:(destruct v; vm_compute; reflexivity) k Hk).
    intros Hr. apply orb_true_iff in H. destruct H as [H | H].
    + lia.
    + apply Z.eqb_eq. exact H.
  - rewrite nth_overflow.
    + lia.
    + replace (List.length (base64_rev_maps v)) with 256%nat
        by (destruct v; vm_compute; reflexivity).
      exact Hk.
Qed.

Lemma rev_pad (v : base64_variant) : rev_at (base64_rev_maps v) PAD = -1.
Proof. destruct v; vm_compute; reflexivity. Qed.

Lemma forward_not_pad (v : base64_variant) (i : Z) :
  0 <= i < 64 -> tbl_at (base64_tables v) i <> PAD.
Proof.
  intros Hi Heq. pose proof (rev_forward v i Hi) as H.
  rewrite Heq, rev_pad in H. lia.
Qed.

(** * Words built by shifting and or-ing *)

Ltac zdiv := unfold is_byte, u8, u32 in *; Z.div_mod_to_equations; lia.

Lemma push8 (ac b : Z) :
  is_byte b -> Z.lor (Z.shiftl ac 8) b = ac * 256 + b.
Proof.
  intros Hb. rewrite lor_shiftl_add; unfold is_byte in *; lia.
Qed.

Lemma push6 (ac ch : Z) :
  0 <= ch < 64 -> Z.lor (Z.shiftl ac 6) ch = ac * 64 + ch.
Proof.
  intros Hb. rewrite lor_shiftl_add; lia.
Qed.

Lemma word16 (a b : Z) :
  is_byte b -> Z.lor (Z.shiftl a 16) (Z.shiftl b 8) = a * 65536 + b * 256.
Proof.
  intros Hb. rewrite lor_shiftl_add; rewrite ?Z.shiftl_mul_pow2;
    unfold is_byte in *; lia.
Qed.

Lemma word24 (a b c : Z) :
  is_byte b -> is_byte c ->
  Z.lor (Z.lor (Z.shiftl a 16) (Z.shiftl b 8)) c = a * 65536 + b * 256 + c.
Proof.
  intros Hb Hc. rewrite word16 by assumption.
  apply (lor_disjoint_add _ _ 8); zdiv.
Qed.

Lemma sx0_range a : is_byte a -> 0 <= sx0 a < 64.
Proof. unfold sx0. intros. zdiv. Qed.
Lemma sx1_range a b : is_byte b -> 0 <= sx1 a b < 64.
Proof. unfold sx1. intros. zdiv. Qed.
Lemma sx2_range b c : is_byte c -> 0 <= sx2 b c < 64.
Proof. unfold sx2. intros. zdiv. Qed.
Lemma sx3_range c : 0 <= sx3 c < 64.
Proof. unfold sx3. intros. zdiv. Qed.

(** * The encoders *)

(** Equal symbol lists from equal table indices. *)
Ltac syms_eq tac :=
  repeat (match goal with
          | |- (_ :: _) = (_ :: _) => apply f_equal2; [apply f_equal; tac |]
          end);
  try reflexivity.

Lemma list_ind3 {A : Type} (P : list A -> Prop) :
  P [] -> (forall a, P [a]) -> (forall a b, P [a; b]) ->
  (forall a b c l, P l -> P (a :: b :: c :: l)) ->
  forall l, P l.
Proof.
  intros H0 H1 H2 H3.
  fix IH 1. intros [| a [| b [| c l]]].
  - exact H0.
  - apply H1.
  - apply H2.
  - apply H3. apply IH.
Qed.

Lemma Grp_enc3_sx (tbl : list Z) (a b c : Z) :
  is_byte a -> is_byte b -> is_byte c ->
  Grp.enc3 tbl a b c = map (tbl_at tbl) [sx0 a; sx1 a b; sx2 b c; sx3 c].
Proof.
  intros Ha Hb Hc. unfold Grp.enc3. cbv zeta.
  rewrite word24 by assumption. arith_bits.
  unfold sx0, sx1, sx2, sx3. cbn [map].
  syms_eq zdiv.
Qed.

Lemma Grp_enc2_sx (tbl : list Z) (p : bool) (a b : Z) :
  is_byte a -> is_byte b ->
  Grp.enc2 tbl p a b =
  map (tbl_at tbl) [sx0 a; sx1 a b; sx2 b 0] ++ (if p then [PAD] else []).
Proof.
  intros Ha Hb. unfold Grp.enc2. cbv zeta.
  rewrite word16 by assumption. arith_bits.
  unfold sx0, sx1, sx2. cbn [map app].
  syms_eq zdiv.
Qed.

Lemma Grp_enc1_sx (tbl : list Z) (p : bool) (a : Z) :
  is_byte a ->
  Grp.enc1 tbl p a =
  map (tbl_at tbl) [sx0 a; sx1 a 0] ++ (if p then [PAD; PAD] else []).
Proof.
  intros Ha. unfold Grp.enc1. cbv zeta. arith_bits.
  unfold sx0, sx1. cbn [map app].
  syms_eq zdiv.
Qed.

Lemma Acc_emit_unfold (tbl : list Z) (ac bits : Z) :
  Acc.emit tbl ac bits =
  let sym := tbl_at tbl (Z.land (Z.shiftr ac (bits - 6)) 0x3f) in
  if 6 <=? bits - 6
  then (sym :: fst (Acc.emit tbl ac (bits - 6)),
        snd (Acc.emit tbl ac (bits - 6)))
  else ([sym], bits - 6).
Proof.
  rewrite Acc.emit_equation_1.
  destruct (Z_le_dec 6 (bits - 6)); cbn;
    destruct (Z.leb_spec 6 (bits - 6)); try lia; reflexivity.
Qed.

Lemma Acc_pad_unfold (bits : Z) :
  Acc.pad bits = if bits <? 0 then PAD :: Acc.pad (bits + 2) else [].
Proof.
  rewrite Acc.pad_equation_1.
  destruct (Z_lt_dec bits 0); cbn;
    destruct (Z.ltb_spec bits 0); try lia; reflexivity.
Qed.

(** The [do ... while] loop is left with fewer than six pending bits. *)
Lemma Acc_emit_exit (tbl : list Z) (ac bits : Z) :
  snd (Acc.emit tbl ac bits) < 6.
Proof.
  funelim (Acc.emit tbl ac bits).
  - cbn [snd]. assumption.
  - cbn [snd]. lia.
Qed.

Lemma Acc_emit_8 (tbl : list Z) (ac : Z) :
  Acc.emit tbl ac 8 = ([tbl_at tbl (Z.land (Z.shiftr ac 2) 0x3f)], 2).
Proof. rewrite Acc_emit_unfold. reflexivity. Qed.

Lemma Acc_emit_10 (tbl : list Z) (ac : Z) :
  Acc.emit tbl ac 10 = ([tbl_at tbl (Z.land (Z.shiftr ac 4) 0x3f)], 4).
Proof. rewrite Acc_emit_unfold. reflexivity. Qed.

Lemma Acc_emit_12 (tbl : list Z) (ac : Z) :
  Acc.emit tbl ac 12 =
  ([tbl_at tbl (Z.land (Z.shiftr ac 6) 0x3f);
    tbl_at tbl (Z.land (Z.shiftr ac 0) 0x3f)], 0).
Proof.
  rewrite Acc_emit_unfold. cbn -[Acc.emit tbl_at Z.land Z.shiftr].
  rewrite Acc_emit_unfold. reflexivity.
Qed.

Lemma Acc_pad_m4 : Acc.pad (-4) = [PAD; PAD].
Proof. reflexivity. Qed.

Lemma Acc_pad_m2 : Acc.pad (-2) = [PAD].
Proof. reflexivity. Qed.

(** Three source bytes, started with no pending bits: four symbols, and no
    pending bits again. *)
Lemma Acc_encode_group (tbl : list Z) (p : bool) (a b c : Z) (rest : list Z)
    (ac : Z) :
  Acc.encode_loop tbl p (a :: b :: c :: rest) ac 0 =
  let ac1 := u32 (Z.lor (Z.shiftl ac 8) a) in
  let ac2 := u32 (Z.lor (Z.shiftl ac1 8) b) in
  let ac3 := u32 (Z.lor (Z.shiftl ac2 8) c) in
  [ tbl_at tbl (Z.land (Z.shiftr ac1 2) 0x3f);
    tbl_at tbl (Z.land (Z.shiftr ac2 4) 0x3f);
    tbl_at tbl (Z.land (Z.shiftr ac3 6) 0x3f);
    tbl_at tbl (Z.land (Z.shiftr ac3 0) 0x3f) ]
  ++ Acc.encode_loop tbl p rest ac3 0.
Proof.
  cbn [Acc.encode_loop]. cbv zeta.
  change (0 + 8) with 8. rewrite Acc_emit_8. cbn [fst snd].
  change (2 + 8) with 10. rewrite Acc_emit_10. cbn [fst snd].
  change (4 + 8) with 12. rewrite Acc_emit_12. cbn [fst snd].
  reflexivity.
Qed.

Lemma Acc_encode_two (tbl : list Z) (p : bool) (a b : Z) (ac : Z) :
  Acc.encode_loop tbl p [a; b] ac 0 =
  let ac1 := u32 (Z.lor (Z.shiftl ac 8) a) in
  let ac2 := u32 (Z.lor (Z.shiftl ac1 8) b) in
  [ tbl_at tbl (Z.land (Z.shiftr ac1 2) 0x3f);
    tbl_at tbl (Z.land (Z.shiftr ac2 4) 0x3f);
    tbl_at tbl (Z.land (u32 (Z.shiftl ac2 2)) 0x3f) ]
  ++ (if p then [PAD] else []).
Proof.
  cbn [Acc.encode_loop]. cbv zeta.
  change (0 + 8) with 8. rewrite Acc_emit_8. cbn [fst snd].
  change (2 + 8) with 10. rewrite Acc_emit_10. cbn [fst snd].
  unfold Acc.encode_tail. cbn [Z.eqb]. change (6 - 4) with 2.
  change (4 - 6) with (-2). rewrite Acc_pad_m2. reflexivity.
Qed.

Lemma Acc_encode_one (tbl : list Z) (p : bool) (a : Z) (ac : Z) :
  Acc.encode_loop tbl p [a] ac 0 =
  let ac1 := u32 (Z.lor (Z.shiftl ac 8) a) in
  [ tbl_at tbl (Z.land (Z.shiftr ac1 2) 0x3f);
    tbl_at tbl (Z.land (u32 (Z.shiftl ac1 4)) 0x3f) ]
  ++ (if p then [PAD; PAD] else []).
Proof.
  cbn [Acc.encode_loop]. cbv zeta.
  change (0 + 8) with 8. rewrite Acc_emit_8. cbn [fst snd].
  unfold Acc.encode_tail. cbn [Z.eqb]. change (6 - 2) with 4.
  change (2 - 6) with (-4). rewrite Acc_pad_m4. reflexivity.
Qed.

Lemma Acc_encode_none (tbl : list Z) (p : bool) (ac : Z) :
  Acc.encode_loop tbl p [] ac 0 = [].
Proof.
  cbn [Acc.encode_loop]. unfold Acc.encode_tail. cbn [Z.eqb app].
  destruct p; reflexivity.
Qed.

(** The accumulator loop stores the same symbols as the grouped loop. *)
Lemma encode_loop_equiv (tbl : list Z) (p : bool) (src : list Z) :
  bytes src ->
  forall ac, Acc.encode_loop tbl p src ac 0 = Grp.encode_loop tbl p src.
Proof.
  induction src as [| a | a b | a b c l IH] using list_ind3; intros Hb ac.
  - apply Acc_encode_none.
  - inversion_clear Hb as [| ? ? Ha _].
    rewrite Acc_encode_one. cbn [Grp.encode_loop].
    rewrite Grp_enc1_sx by assumption. cbv zeta.
    rewrite push8 by assumption. arith_bits.
    unfold sx0, sx1. cbn [map app]. syms_eq zdiv.
  - inversion_clear Hb as [| ? ? Ha Hb']. inversion_clear Hb' as [| ? ? Hb _].
    rewrite Acc_encode_two. cbn [Grp.encode_loop].
    rewrite Grp_enc2_sx by assumption. cbv zeta.
    rewrite !push8 by assumption. arith_bits.
    unfold sx0, sx1, sx2. cbn [map app]. syms_eq zdiv.
  - inversion_clear Hb as [| ? ? Ha Hb']. inversion_clear Hb' as [| ? ? Hb Hb''].
    inversion_clear Hb'' as [| ? ? Hc Hl].
    rewrite Acc_encode_group. cbn [Grp.encode_loop].
    rewrite Grp_enc3_sx by assumption. cbv zeta.
    rewrite IH by assumption.
    rewrite !push8 by assumption. arith_bits.
    unfold sx0, sx1, sx2, sx3. cbn [map app]. syms_eq zdiv.
Qed.

Lemma ceil_div_spec (a b : Z) :
  0 < b -> a <= b * ceil_div a b < a + b.
Proof. unfold ceil_div. intros Hb. Z.div_mod_to_equations. nia. Qed.

Lemma Grp_encode_length (tbl : list Z) (p : bool) (src : list Z) :
  Z.of_nat (List.length (Grp.encode_loop tbl p src)) =
  encoded_length p (Z.of_nat (List.length src)).
Proof.
  unfold encoded_length, ceil_div.
  induction src as [| a | a b | a b c l IH] using list_ind3.
  - destruct p; reflexivity.
  - destruct p; reflexivity.
  - destruct p; reflexivity.
  - cbn [Grp.encode_loop]. rewrite length_app.
    change (List.length (Grp.enc3 tbl a b c)) with 4%nat.
    cbn [List.length]. destruct p; zdiv.
Qed.

Lemma Acc_encode_length (tbl : list Z) (p : bool) (src : list Z) :
  forall ac,
  Z.of_nat (List.length (Acc.encode_loop tbl p src ac 0)) =
  encoded_length p (Z.of_nat (List.length src)).
Proof.
  unfold encoded_length, ceil_div.
  induction src as [| a | a b | a b c l IH] using list_ind3; intros ac.
  - rewrite Acc_encode_none. destruct p; reflexivity.
  - rewrite Acc_encode_one. destruct p; reflexivity.
  - rewrite Acc_encode_two. destruct p; reflexivity.
  - rewrite Acc_encode_group. cbv zeta. rewrite length_app.
    cbn [List.length]. specialize (IH (u32
      (Z.lor (Z.shiftl (u32 (Z.lor (Z.shiftl (u32 (Z.lor (Z.shiftl ac 8) a)) 8) b)) 8) c))).
    destruct p; zdiv.
Qed.

(** * The decoders *)

Lemma by0_sx a b : is_byte a -> is_byte b -> by0 (sx0 a) (sx1 a b) = a.
Proof. unfold by0, sx0, sx1. intros. zdiv. Qed.
Lemma by1_sx a b c : is_byte b -> is_byte c -> by1 (sx1 a b) (sx2 b c) = b.
Proof. unfold by1, sx1, sx2. intros. zdiv. Qed.
Lemma by2_sx b c : is_byte c -> by2 (sx2 b c) (sx3 c) = c.
Proof. unfold by2, sx2, sx3. intros. zdiv. Qed.

Lemma list_ind4 {A : Type} (P : list A -> Prop) :
  P [] -> (forall a, P [a]) -> (forall a b, P [a; b]) ->
  (forall a b c, P [a; b; c]) ->
  (forall a b c d l, P l -> P (a :: b :: c :: d :: l)) ->
  forall l, P l.
Proof.
  intros H0 H1 H2 H3 H4.
  fix IH 1. intros [| a [| b [| c [| d l]]]].
  - exact H0.
  - apply H1.
  - apply H2.
  - apply H3.
  - apply H4. apply IH.
Qed.

Lemma val4_neg (r0 r1 r2 r3 : Z) :
  val4 r0 r1 r2 r3 < 0 <-> r0 < 0 \/ r1 < 0 \/ r2 < 0 \/ r3 < 0.
Proof.
  unfold val4. rewrite !Z.lor_neg, !Z.shiftl_neg. tauto.
Qed.

Lemma val4_sextets (r0 r1 r2 r3 : Z) :
  sextet r0 -> sextet r1 -> sextet r2 -> sextet r3 ->
  val4 r0 r1 r2 r3 = r0 * 2 ^ 18 + r1 * 2 ^ 12 + r2 * 2 ^ 6 + r3.
Proof.
  unfold sextet, val4. intros H0 H1 H2 H3.
  rewrite (lor_shiftl_add r0 _ 18)
    by (rewrite ?Z.shiftl_mul_pow2; lia).
  rewrite (lor_disjoint_add _ (Z.shiftl r2 6) 12)
    by (rewrite ?Z.shiftl_mul_pow2; try lia; zdiv).
  rewrite (lor_disjoint_add _ r3 6)
    by (rewrite ?Z.shiftl_mul_pow2; try lia; zdiv).
  rewrite !Z.shiftl_mul_pow2 by lia. reflexivity.
Qed.

Lemma val2_sextets (r0 r1 : Z) :
  sextet r0 -> sextet r1 ->
  Z.lor (Z.shiftl r0 12) (Z.shiftl r1 6) = r0 * 2 ^ 12 + r1 * 2 ^ 6.
Proof.
  unfold sextet. intros H0 H1.
  rewrite (lor_shiftl_add r0 _ 12)
    by (rewrite ?Z.shiftl_mul_pow2; lia).
  rewrite !Z.shiftl_mul_pow2 by lia. reflexivity.
Qed.

Lemma val3_sextets (r0 r1 r2 : Z) :
  sextet r0 -> sextet r1 -> sextet r2 ->
  Z.lor (Z.lor (Z.shiftl r0 12) (Z.shiftl r1 6)) r2
  = r0 * 2 ^ 12 + r1 * 2 ^ 6 + r2.
Proof.
  unfold sextet. intros H0 H1 H2.
  rewrite val2_sextets by assumption.
  rewrite (lor_disjoint_add _ r2 6) by (try lia; zdiv).
  reflexivity.
Qed.

Lemma bit31_shiftl_m1 (k : Z) :
  0 <= k <= 31 -> Z.testbit (Z.shiftl (-1) k) 31 = true.
Proof.
  intros Hk. rewrite Z.shiftl_spec by lia. apply Z.bits_m1. lia.
Qed.

Lemma sign_check (val m : Z) :
  Z.testbit val 31 = true -> Z.testbit m 31 = true ->
  (Z.land (u32 val) m =? 0) = false.
Proof.
  intros Hv Hm. apply Z.eqb_neq. apply land_sign_nonzero; assumption.
Qed.

Section Decoders.

(** A reverse table: every entry is the sentinel or a 6-bit value, and the
    padding character is not a symbol. *)
Variable R : list Z.
Hypothesis R_values : forall c, rev_value (rev_at R c).
Hypothesis R_pad : rev_at R PAD = -1.

Lemma valid_not_pad (c : Z) : 0 <= rev_at R c -> (c =? PAD) = false.
Proof.
  intros Hc. apply Z.eqb_neq. intros ->. rewrite R_pad in Hc. lia.
Qed.

(** ** Grouped decoder: the tail *)

Lemma Grp_tail2 (s0 s1 : Z) (rest out : list Z) :
  Grp.decode_tail R false 2 (s0 :: s1 :: rest) out =
  if (0 <=? rev_at R s0) && (0 <=? rev_at R s1)
     && (rev_at R s1 mod 16 =? 0)
  then Some (out ++ [by0 (rev_at R s0) (rev_at R s1)])
  else None.
Proof.
  unfold Grp.decode_tail. cbn [Z.eqb orb nth Pos.eqb].
  destruct (R_values s0) as [E0 | H0], (R_values s1) as [E1 | H1];
    try rewrite E0; try rewrite E1.
  1-3: rewrite sign_check;
    [ reflexivity || (destruct (0 <=? _); reflexivity)
    | rewrite Z.lor_spec, ?bit31_shiftl_m1 by lia;
      reflexivity || apply orb_true_r
    | reflexivity ].
  rewrite val2_sextets by assumption. unfold sextet in *.
  replace (u32 (rev_at R s0 * 2 ^ 12 + rev_at R s1 * 2 ^ 6))
    with (rev_at R s0 * 2 ^ 12 + rev_at R s1 * 2 ^ 6) by zdiv.
  rewrite (land_low _ _ 10) by (reflexivity || lia).
  arith_bits.
  replace (0 <=? rev_at R s0) with true by (symmetry; apply Z.leb_le; lia).
  replace (0 <=? rev_at R s1) with true by (symmetry; apply Z.leb_le; lia).
  cbn [andb].
  destruct (Z.eqb_spec ((rev_at R s0 * 2 ^ 12 + rev_at R s1 * 2 ^ 6) mod 2 ^ 10) 0),
           (Z.eqb_spec (rev_at R s1 mod 16) 0); try zdiv.
  - do 3 f_equal. unfold by0. zdiv.
  - reflexivity.
Qed.

Lemma Grp_tail3 (s0 s1 s2 : Z) (rest out : list Z) :
  Grp.decode_tail R false 3 (s0 :: s1 :: s2 :: rest) out =
  if (0 <=? rev_at R s0) && (0 <=? rev_at R s1) && (0 <=? rev_at R s2)
     && (rev_at R s2 mod 4 =? 0)
  then Some (out ++ [by0 (rev_at R s0) (rev_at R s1);
                     by1 (rev_at R s1) (rev_at R s2)])
  else None.
Proof.
  unfold Grp.decode_tail. cbn [Z.eqb orb nth Pos.eqb].
  destruct (R_values s0) as [E0 | H0], (R_values s1) as [E1 | H1],
           (R_values s2) as [E2 | H2];
    try rewrite E0; try rewrite E1; try rewrite E2.
  1-7: rewrite sign_check;
    [ cbn [Z.leb Z.compare andb];
      repeat match goal with
             | |- context [0 <=? ?x] => destruct (0 <=? x)
             end; reflexivity
    | rewrite !Z.lor_spec, ?bit31_shiftl_m1 by lia;
      rewrite ?orb_true_r; try reflexivity;
      change (Z.testbit (-1) 31) with true; rewrite ?orb_true_r; reflexivity
    | reflexivity ].
  rewrite val3_sextets, val2_sextets by assumption. unfold sextet in *.
  replace (u32 (rev_at R s0 * 2 ^ 12 + rev_at R s1 * 2 ^ 6 + rev_at R s2))
    with (rev_at R s0 * 2 ^ 12 + rev_at R s1 * 2 ^ 6 + rev_at R s2) by zdiv.
  rewrite (land_low _ _ 2) by (reflexivity || lia).
  arith_bits.
  replace (0 <=? rev_at R s0) with true by (symmetry; apply Z.leb_le; lia).
  replace (0 <=? rev_at R s1) with true by (symmetry; apply Z.leb_le; lia).
  replace (0 <=? rev_at R s2) with true by (symmetry; apply Z.leb_le; lia).
  cbn [andb].
  destruct (Z.eqb_spec
              ((rev_at R s0 * 2 ^ 12 + rev_at R s1 * 2 ^ 6 + rev_at R s2)
                 mod 2 ^ 2) 0),
           (Z.eqb_spec (rev_at R s2 mod 4) 0); try zdiv.
  - rewrite <- app_assoc. cbn [app]. unfold by0, by1.
    do 2 f_equal. syms_eq idtac. f_equal; [zdiv |]. f_equal. zdiv.
  - reflexivity.
Qed.

Lemma sextet_of_valid (c : Z) : 0 <= rev_at R c -> sextet (rev_at R c).
Proof.
  intros Hc. destruct (R_values c) as [E | H]; [lia | exact H].
Qed.

Lemma invalid_of_neg (c : Z) : rev_at R c < 0 -> rev_at R c = -1.
Proof.
  intros Hc. destruct (R_values c) as [E | H]; [exact E | unfold sextet in H; lia].
Qed.

(** ** Grouped decoder: one pass of the loop *)

Lemma Grp_loop_group (p : bool) (s0 s1 s2 s3 : Z) (s' out : list Z) :
  Grp.decode_loop R p (s0 :: s1 :: s2 :: s3 :: s') out =
  let val := val4 (rev_at R s0) (rev_at R s1) (rev_at R s2) (rev_at R s3) in
  if val <? 0 then
    if negb p
       || negb (Z.of_nat (List.length (s0 :: s1 :: s2 :: s3 :: s')) =? 4)
       || negb (s3 =? PAD)
    then None
    else Grp.decode_tail R false (if s2 =? PAD then 2 else 3)
           (s0 :: s1 :: s2 :: s3 :: s') out
  else
    Grp.decode_loop R p s'
      (out ++ [u8 (Z.shiftr val 16); u8 (Z.shiftr val 8); u8 val]).
Proof. reflexivity. Qed.

Lemma Grp_group_valid (p : bool) (s0 s1 s2 s3 : Z) (s' out : list Z) :
  0 <= rev_at R s0 -> 0 <= rev_at R s1 ->
  0 <= rev_at R s2 -> 0 <= rev_at R s3 ->
  Grp.decode_loop R p (s0 :: s1 :: s2 :: s3 :: s') out =
  Grp.decode_loop R p s'
    (out ++ [by0 (rev_at R s0) (rev_at R s1);
             by1 (rev_at R s1) (rev_at R s2);
             by2 (rev_at R s2) (rev_at R s3)]).
Proof.
  intros H0 H1 H2 H3. rewrite Grp_loop_group. cbv zeta.
  apply sextet_of_valid in H0, H1, H2, H3.
  destruct (Z.ltb_spec (val4 (rev_at R s0) (rev_at R s1) (rev_at R s2)
                          (rev_at R s3)) 0) as [Hneg | _].
  - apply val4_neg in Hneg. unfold sextet in *. lia.
  - rewrite val4_sextets by assumption. arith_bits.
    unfold by0, by1, by2, sextet in *.
    do 2 f_equal. f_equal; [zdiv |]. f_equal; [zdiv |]. f_equal. zdiv.
Qed.

Lemma Grp_group_invalid (p : bool) (s0 s1 s2 s3 : Z) (s' out : list Z) :
  rev_at R s0 < 0 \/ rev_at R s1 < 0 \/ rev_at R s2 < 0 \/ rev_at R s3 < 0 ->
  Grp.decode_loop R p (s0 :: s1 :: s2 :: s3 :: s') out =
  match s' with
  | [] =>
      if p && (s3 =? PAD)
      then Grp.decode_tail R false (if s2 =? PAD then 2 else 3)
             [s0; s1; s2; s3] out
      else None
  | _ :: _ => None
  end.
Proof.
  intros Hneg. rewrite Grp_loop_group. cbv zeta.
  apply val4_neg in Hneg. apply Z.ltb_lt in Hneg. rewrite Hneg.
  destruct s' as [| x s'].
  - cbn [List.length Z.of_nat]. destruct p, (s3 =? PAD); reflexivity.
  - replace (Z.of_nat (List.length (s0 :: s1 :: s2 :: s3 :: x :: s')) =? 4)
      with false.
    + destruct p; reflexivity.
    + symmetry. apply Z.eqb_neq. cbn [List.length]. lia.
Qed.

Lemma Grp_tail_padding (n : Z) (s out : list Z) :
  n <> 0 -> Grp.decode_tail R true n s out = None.
Proof.
  intros Hn. unfold Grp.decode_tail.
  apply Z.eqb_neq in Hn. rewrite Hn. reflexivity.
Qed.

Lemma Grp_tail_one (p : bool) (s out : list Z) :
  Grp.decode_tail R p 1 s out = None.
Proof. unfold Grp.decode_tail. destruct p; reflexivity. Qed.

Lemma Grp_loop_0 (p : bool) (out : list Z) :
  Grp.decode_loop R p [] out = Some out.
Proof. reflexivity. Qed.

Lemma Grp_loop_1 (p : bool) (x : Z) (out : list Z) :
  Grp.decode_loop R p [x] out = None.
Proof. apply Grp_tail_one. Qed.

Lemma Grp_loop_2 (p : bool) (x y : Z) (out : list Z) :
  Grp.decode_loop R p [x; y] out =
  if p then None else Grp.decode_tail R false 2 [x; y] out.
Proof. destruct p; reflexivity. Qed.

Lemma Grp_loop_3 (p : bool) (x y z : Z) (out : list Z) :
  Grp.decode_loop R p [x; y; z] out =
  if p then None else Grp.decode_tail R false 3 [x; y; z] out.
Proof. destruct p; reflexivity. Qed.

(** ** Accumulator decoder: one symbol at a time *)

Lemma Acc_step_valid (p : bool) (c : Z) (rest : list Z) (ac bits : Z)
    (out : list Z) :
  0 <= rev_at R c ->
  Acc.decode_loop R p (c :: rest) ac bits out =
  let ac' := u32 (ac * 64 + rev_at R c) in
  if 8 <=? bits + 6
  then Acc.decode_loop R p rest ac' (bits + 6 - 8)
         (out ++ [u8 (Z.shiftr ac' (bits + 6 - 8))])
  else Acc.decode_loop R p rest ac' (bits + 6) out.
Proof.
  intros Hc. cbn [Acc.decode_loop].
  rewrite (valid_not_pad c Hc), andb_false_r.
  destruct (Z.eqb_spec (rev_at R c) (-1)) as [E | _]; [lia |].
  rewrite push6 by (apply sextet_of_valid; exact Hc).
  reflexivity.
Qed.

Lemma Acc_step_invalid (p : bool) (c : Z) (rest : list Z) (ac bits : Z)
    (out : list Z) :
  rev_at R c = -1 -> p = false \/ c <> PAD ->
  Acc.decode_loop R p (c :: rest) ac bits out = None.
Proof.
  intros Hc Hp. cbn [Acc.decode_loop].
  replace (p && (c =? PAD)) with false.
  - rewrite Hc. reflexivity.
  - destruct Hp as [-> | Hp]; [reflexivity |].
    apply Z.eqb_neq in Hp. rewrite Hp. symmetry. apply andb_false_r.
Qed.

Lemma Acc_step_pad (rest : list Z) (ac bits : Z) (out : list Z) :
  Acc.decode_loop R true (PAD :: rest) ac bits out =
  Acc.decode_loop R true rest (u32 (Z.shiftl ac 6))
    (if 8 <=? bits + 6 then bits + 6 - 8 else bits + 6) out.
Proof. reflexivity. Qed.

Lemma Acc_end (p : bool) (ac bits : Z) (out : list Z) :
  0 <= bits < 32 ->
  Acc.decode_loop R p [] ac bits out =
  if ac mod 2 ^ bits =? 0 then Some out else None.
Proof.
  intros Hb. cbn [Acc.decode_loop].
  replace (u32 (Z.shiftl 1 bits - 1)) with (Z.ones bits).
  - rewrite Z.land_ones by lia. reflexivity.
  - rewrite Z.ones_equiv, Z.shiftl_1_l. unfold u32.
    symmetry. apply Z.mod_small.
    assert (0 < 2 ^ bits <= 2 ^ 31).
    { split; [apply Z.pow_pos_nonneg; lia |].
      apply Z.pow_le_mono_r; lia. }
    lia.
Qed.

(** No pending bits, two valid symbols: one byte, four pending bits. *)
Lemma Acc_two_valid (p : bool) (s0 s1 : Z) (rest : list Z) (ac : Z)
    (out : list Z) :
  0 <= rev_at R s0 -> 0 <= rev_at R s1 ->
  exists ac2,
    ac2 mod 16 = rev_at R s1 mod 16 /\
    Acc.decode_loop R p (s0 :: s1 :: rest) ac 0 out =
    Acc.decode_loop R p rest ac2 4 (out ++ [by0 (rev_at R s0) (rev_at R s1)]).
Proof.
  intros H0 H1.
  rewrite Acc_step_valid by assumption. cbv zeta.
  change (8 <=? 0 + 6) with false. change (0 + 6) with 6. cbv iota.
  rewrite Acc_step_valid by assumption. cbv zeta.
  change (8 <=? 6 + 6) with true. change (6 + 6 - 8) with 4. cbv iota.
  apply sextet_of_valid in H0, H1. unfold sextet in *.
  eexists. split; [| f_equal].
  - zdiv.
  - do 2 f_equal. arith_bits. unfold by0. zdiv.
Qed.

(** No pending bits, three valid symbols: two bytes, two pending bits. *)
Lemma Acc_three_valid (p : bool) (s0 s1 s2 : Z) (rest : list Z) (ac : Z)
    (out : list Z) :
  0 <= rev_at R s0 -> 0 <= rev_at R s1 -> 0 <= rev_at R s2 ->
  exists ac3,
    ac3 mod 4 = rev_at R s2 mod 4 /\
    Acc.decode_loop R p (s0 :: s1 :: s2 :: rest) ac 0 out =
    Acc.decode_loop R p rest ac3 2
      (out ++ [by0 (rev_at R s0) (rev_at R s1);
               by1 (rev_at R s1) (rev_at R s2)]).
Proof.
  intros H0 H1 H2.
  destruct (Acc_two_valid p s0 s1 (s2 :: rest) ac out H0 H1)
    as (ac2 & Hac2 & ->).
  rewrite Acc_step_valid by assumption. cbv zeta.
  change (8 <=? 4 + 6) with true. change (4 + 6 - 8) with 2. cbv iota.
  apply sextet_of_valid in H1, H2. unfold sextet in *.
  eexists. split; [| f_equal].
  - zdiv.
  - rewrite <- app_assoc. cbn [app]. do 3 f_equal. arith_bits. unfold by1. zdiv.
Qed.

(** No pending bits, four valid symbols: three bytes, no pending bits. *)
Lemma Acc_group_valid (p : bool) (s0 s1 s2 s3 : Z) (rest : list Z) (ac : Z)
    (out : list Z) :
  0 <= rev_at R s0 -> 0 <= rev_at R s1 ->
  0 <= rev_at R s2 -> 0 <= rev_at R s3 ->
  exists ac4,
    Acc.decode_loop R p (s0 :: s1 :: s2 :: s3 :: rest) ac 0 out =
    Acc.decode_loop R p rest ac4 0
      (out ++ [by0 (rev_at R s0) (rev_at R s1);
               by1 (rev_at R s1) (rev_at R s2);
               by2 (rev_at R s2) (rev_at R s3)]).
Proof.
  intros H0 H1 H2 H3.
  destruct (Acc_three_valid p s0 s1 s2 (s3 :: rest) ac out H0 H1 H2)
    as (ac3 & Hac3 & ->).
  rewrite Acc_step_valid by assumption. cbv zeta.
  change (8 <=? 2 + 6) with true. change (2 + 6 - 8) with 0. cbv iota.
  apply sextet_of_valid in H2, H3. unfold sextet in *.
  eexists. f_equal.
  rewrite <- app_assoc. cbn [app]. do 4 f_equal. arith_bits. unfold by2. zdiv.
Qed.

(** ** Characters outside the alphabet *)

Lemma stray_neg (p : bool) (c : Z) : stray R p c -> rev_at R c < 0.
Proof. intros [E _]. lia. Qed.

Lemma Acc_stray (p : bool) (s : list Z) (c : Z) :
  In c s -> stray R p c ->
  forall ac bits out, Acc.decode_loop R p s ac bits out = None.
Proof.
  intros Hin [Hc Hp].
  induction s as [| c0 s IH]; [contradiction |].
  intros ac bits out. destruct Hin as [-> | Hin].
  - apply Acc_step_invalid; assumption.
  - specialize (IH Hin). cbn [Acc.decode_loop].
    destruct (p && (c0 =? PAD)); [apply IH |].
    destruct (rev_at R c0 =? -1); [reflexivity |].
    destruct (8 <=? bits + 6); apply IH.
Qed.

Lemma tail2_none (r0 r1 : Z) (x : list Z) :
  r0 < 0 \/ r1 < 0 ->
  (if (0 <=? r0) && (0 <=? r1) && (r1 mod 16 =? 0) then Some x else None)
  = None.
Proof.
  intros H. destruct (Z.leb_spec 0 r0), (Z.leb_spec 0 r1);
    try reflexivity. lia.
Qed.

Lemma tail3_none (r0 r1 r2 : Z) (x : list Z) :
  r0 < 0 \/ r1 < 0 \/ r2 < 0 ->
  (if (0 <=? r0) && (0 <=? r1) && (0 <=? r2) && (r2 mod 4 =? 0)
   then Some x else None) = None.
Proof.
  intros H. destruct (Z.leb_spec 0 r0), (Z.leb_spec 0 r1), (Z.leb_spec 0 r2);
    try reflexivity. lia.
Qed.

Lemma Grp_stray (p : bool) (s : list Z) (c : Z) :
  In c s -> stray R p c ->
  forall out, Grp.decode_loop R p s out = None.
Proof.
  intros Hin Hc. pose proof (stray_neg p c Hc) as Hneg.
  revert Hin.
  induction s as [| x | x y | x y z | x y z w l IH] using list_ind4;
    intros Hin out.
  - contradiction.
  - apply Grp_loop_1.
  - rewrite Grp_loop_2. destruct p; [reflexivity |].
    rewrite Grp_tail2. apply tail2_none.
    destruct Hin as [-> | [-> | []]]; auto.
  - rewrite Grp_loop_3. destruct p; [reflexivity |].
    rewrite Grp_tail3. apply tail3_none.
    destruct Hin as [-> | [-> | [-> | []]]]; auto.
  - destruct (Z_lt_dec (rev_at R x) 0) as [Hx | Hx];
      [| destruct (Z_lt_dec (rev_at R y) 0) as [Hy | Hy];
         [| destruct (Z_lt_dec (rev_at R z) 0) as [Hz | Hz];
            [| destruct (Z_lt_dec (rev_at R w) 0) as [Hw | Hw]]]].
    5: { rewrite Grp_group_valid by lia. apply IH.
         destruct Hin as [-> | [-> | [-> | [-> | Hin]]]];
           try lia. exact Hin. }
    all: rewrite Grp_group_invalid by auto.
    all: destruct l as [| l0 l]; [| reflexivity].
    all: destruct p; [| reflexivity].
    all: destruct (Z.eqb_spec w PAD) as [Ew | Ew]; [| reflexivity].
    all: destruct Hc as [_ [Hp | Hc]]; [discriminate |].
    all: cbn [andb]; destruct (Z.eqb_spec z PAD) as [Ez | Ez];
      [ rewrite Grp_tail2; apply tail2_none
      | rewrite Grp_tail3; apply tail3_none ].
    all: destruct Hin as [-> | [-> | [-> | [-> | []]]]];
      solve [auto | congruence].
Qed.

(** ** What the grouped decoder accepts, the accumulator decodes alike *)

Lemma tail2_some (r0 r1 : Z) (x res : list Z) :
  (if (0 <=? r0) && (0 <=? r1) && (r1 mod 16 =? 0) then Some x else None)
  = Some res ->
  0 <= r0 /\ 0 <= r1 /\ r1 mod 16 = 0 /\ res = x.
Proof.
  destruct (Z.leb_spec 0 r0), (Z.leb_spec 0 r1), (Z.eqb_spec (r1 mod 16) 0);
    cbn [andb]; intros HS; inversion HS; auto.
Qed.

Lemma tail3_some (r0 r1 r2 : Z) (x res : list Z) :
  (if (0 <=? r0) && (0 <=? r1) && (0 <=? r2) && (r2 mod 4 =? 0)
   then Some x else None) = Some res ->
  0 <= r0 /\ 0 <= r1 /\ 0 <= r2 /\ r2 mod 4 = 0 /\ res = x.
Proof.
  destruct (Z.leb_spec 0 r0), (Z.leb_spec 0 r1), (Z.leb_spec 0 r2),
    (Z.eqb_spec (r2 mod 4) 0);
    cbn [andb]; intros HS; inversion HS; auto.
Qed.

Lemma Acc_end_0 (p : bool) (ac : Z) (out : list Z) :
  Acc.decode_loop R p [] ac 0 out = Some out.
Proof. rewrite Acc_end by lia. rewrite Z.mod_1_r. reflexivity. Qed.

Lemma Acc_end_zero (p : bool) (ac bits : Z) (out : list Z) :
  0 <= bits < 32 -> ac mod 2 ^ bits = 0 ->
  Acc.decode_loop R p [] ac bits out = Some out.
Proof. intros Hb E. rewrite Acc_end by lia. rewrite E. reflexivity. Qed.

Lemma decode_refines (p : bool) (s : list Z) :
  forall out ac res,
    Grp.decode_loop R p s out = Some res ->
    Acc.decode_loop R p s ac 0 out = Some res.
Proof.
  induction s as [| x | x y | x y z | x y z w l IH] using list_ind4;
    intros out ac res HG.
  - rewrite Grp_loop_0 in HG. inversion HG; subst. apply Acc_end_0.
  - rewrite Grp_loop_1 in HG. discriminate.
  - rewrite Grp_loop_2 in HG. destruct p; [discriminate |].
    rewrite Grp_tail2 in HG.
    apply tail2_some in HG. destruct HG as (Hx & Hy & Hz & ->).
    destruct (Acc_two_valid false x y [] ac out Hx Hy) as (ac2 & E & ->).
    apply Acc_end_zero; [lia |]. change (2 ^ 4) with 16. lia.
  - rewrite Grp_loop_3 in HG. destruct p; [discriminate |].
    rewrite Grp_tail3 in HG.
    apply tail3_some in HG. destruct HG as (Hx & Hy & Hz & Hf & ->).
    destruct (Acc_three_valid false x y z [] ac out Hx Hy Hz) as (ac3 & E & ->).
    apply Acc_end_zero; [lia |]. change (2 ^ 2) with 4. lia.
  - destruct (Z_lt_dec (rev_at R x) 0) as [Hx | Hx];
      [| destruct (Z_lt_dec (rev_at R y) 0) as [Hy | Hy];
         [| destruct (Z_lt_dec (rev_at R z) 0) as [Hz | Hz];
            [| destruct (Z_lt_dec (rev_at R w) 0) as [Hw | Hw]]]].
    5: { rewrite Grp_group_valid in HG by lia.
         destruct (Acc_group_valid p x y z w l ac out) as (ac4 & ->); try lia.
         apply IH. exact HG. }
    all: rewrite Grp_group_invalid in HG by auto.
    all: destruct l as [| l0 l]; [| discriminate].
    all: destruct p; [| discriminate].
    all: destruct (Z.eqb_spec w PAD) as [Ew | Ew]; [| discriminate].
    all: cbn [andb] in HG; destruct (Z.eqb_spec z PAD) as [Ez | Ez].
    all: try (rewrite Grp_tail2 in HG; apply tail2_some in HG;
              destruct HG as (Hx' & Hy' & Hf & ->); try lia;
              destruct (Acc_two_valid true x y [z; w] ac out Hx' Hy')
                as (ac2 & E & ->);
              subst z w; rewrite !Acc_step_pad;
              cbn [Z.add Z.leb Z.compare Pos.compare Pos.compare_cont
                     Z.sub Z.opp Z.pos_sub Pos.add Pos.succ Z.double
                     Z.succ_double Z.pred_double Pos.pred_double];
              apply Acc_end_0).
    all: rewrite Grp_tail3 in HG; apply tail3_some in HG;
         destruct HG as (Hx' & Hy' & Hz' & Hf & ->); try lia.
    all: destruct (Acc_three_valid true x y z [w] ac out Hx' Hy' Hz')
           as (ac3 & E & ->);
         subst w; rewrite !Acc_step_pad; apply Acc_end_0.
Qed.

(** ** Without padding the two decoders differ on a single leftover only *)

Lemma tail2_valid (r0 r1 : Z) (x : list Z) :
  0 <= r0 -> 0 <= r1 ->
  (if (0 <=? r0) && (0 <=? r1) && (r1 mod 16 =? 0) then Some x else None)
  = if r1 mod 16 =? 0 then Some x else None.
Proof.
  intros H0 H1.
  destruct (Z.leb_spec 0 r0), (Z.leb_spec 0 r1); try lia. reflexivity.
Qed.

Lemma tail3_valid (r0 r1 r2 : Z) (x : list Z) :
  0 <= r0 -> 0 <= r1 -> 0 <= r2 ->
  (if (0 <=? r0) && (0 <=? r1) && (0 <=? r2) && (r2 mod 4 =? 0)
   then Some x else None)
  = if r2 mod 4 =? 0 then Some x else None.
Proof.
  intros H0 H1 H2.
  destruct (Z.leb_spec 0 r0), (Z.leb_spec 0 r1), (Z.leb_spec 0 r2);
    try lia. reflexivity.
Qed.

Lemma stray_of_neg (c : Z) : rev_at R c < 0 -> stray R false c.
Proof. intros H. split; [apply invalid_of_neg; exact H | left; reflexivity]. Qed.

Lemma unpadded_equiv (s : list Z) :
  forall out ac,
    Z.of_nat (List.length s) mod 4 <> 1 ->
    Acc.decode_loop R false s ac 0 out = Grp.decode_loop R false s out.
Proof.
  induction s as [| x | x y | x y z | x y z w l IH] using list_ind4;
    intros out ac Hlen.
  - apply Acc_end_0.
  - cbn in Hlen. lia.
  - rewrite Grp_loop_2, Grp_tail2.
    destruct (Z_lt_dec (rev_at R x) 0) as [Hx | Hx];
      [| destruct (Z_lt_dec (rev_at R y) 0) as [Hy | Hy]].
    3: { destruct (Acc_two_valid false x y [] ac out) as (ac2 & E & ->);
           try lia.
         rewrite Acc_end by lia. rewrite tail2_valid by lia.
         change (2 ^ 4) with 16. rewrite E. reflexivity. }
    + rewrite tail2_none by auto.
      apply (Acc_stray false _ x); [cbn; auto | apply stray_of_neg; exact Hx].
    + rewrite tail2_none by auto.
      apply (Acc_stray false _ y); [cbn; auto | apply stray_of_neg; exact Hy].
  - rewrite Grp_loop_3, Grp_tail3.
    destruct (Z_lt_dec (rev_at R x) 0) as [Hx | Hx];
      [| destruct (Z_lt_dec (rev_at R y) 0) as [Hy | Hy];
         [| destruct (Z_lt_dec (rev_at R z) 0) as [Hz | Hz]]].
    4: { destruct (Acc_three_valid false x y z [] ac out) as (ac3 & E & ->);
           try lia.
         rewrite Acc_end by lia. rewrite tail3_valid by lia.
         change (2 ^ 2) with 4. rewrite E. reflexivity. }
    + rewrite tail3_none by auto.
      apply (Acc_stray false _ x); [cbn; auto | apply stray_of_neg; exact Hx].
    + rewrite tail3_none by auto.
      apply (Acc_stray false _ y); [cbn; auto | apply stray_of_neg; exact Hy].
    + rewrite tail3_none by auto.
      apply (Acc_stray false _ z); [cbn; auto | apply stray_of_neg; exact Hz].
  - assert (Hl : Z.of_nat (List.length l) mod 4 <> 1).
    { cbn [List.length] in Hlen. zdiv. }
    destruct (Z_lt_dec (rev_at R x) 0) as [Hx | Hx];
      [| destruct (Z_lt_dec (rev_at R y) 0) as [Hy | Hy];
         [| destruct (Z_lt_dec (rev_at R z) 0) as [Hz | Hz];
            [| destruct (Z_lt_dec (rev_at R w) 0) as [Hw | Hw]]]].
    5: { rewrite Grp_group_valid by lia.
         destruct (Acc_group_valid false x y z w l ac out) as (ac4 & ->);
           try lia.
         apply IH. exact Hl. }
    all: rewrite Grp_group_invalid by auto.
    all: replace (match l with
                  | [] => if false && (w =? PAD)
                          then Grp.decode_tail R false
                                 (if z =? PAD then 2 else 3) [x; y; z; w] out
                          else None
                  | _ :: _ => None
                  end) with (@None (list Z)) by (destruct l; reflexivity).
    + apply (Acc_stray false _ x); [cbn; auto | apply stray_of_neg; exact Hx].
    + apply (Acc_stray false _ y); [cbn; auto | apply stray_of_neg; exact Hy].
    + apply (Acc_stray false _ z); [cbn; auto | apply stray_of_neg; exact Hz].
    + apply (Acc_stray false _ w); [cbn; auto 6 | apply stray_of_neg; exact Hw].
Qed.

(** A single leftover symbol: the accumulator decoder looks at its six bits
    only. *)
Lemma Acc_leftover_one (s : list Z) (c : Z) :
  forall out ac,
    Z.of_nat (List.length s) mod 4 = 0 ->
    Acc.decode_loop R false (s ++ [c]) ac 0 out =
    if rev_at R c =? 0 then Acc.decode_loop R false s ac 0 out else None.
Proof.
  induction s as [| x | x y | x y z | x y z w l IH] using list_ind4;
    intros out ac Hlen; try (cbn in Hlen; lia).
  - cbn [app]. rewrite Acc_end_0.
    destruct (Z_lt_dec (rev_at R c) 0) as [Hc | Hc].
    + destruct (Z.eqb_spec (rev_at R c) 0); [lia |].
      apply (Acc_stray false _ c); [cbn; auto | apply stray_of_neg; exact Hc].
    + rewrite Acc_step_valid by lia. cbv zeta.
      change (8 <=? 0 + 6) with false. cbv iota.
      rewrite Acc_end by lia. change (0 + 6) with 6.
      pose proof (sextet_of_valid c ltac:(lia)) as Hs. unfold sextet in Hs.
      replace (u32 (ac * 64 + rev_at R c) mod 2 ^ 6) with (rev_at R c)
        by zdiv.
      reflexivity.
  - assert (Hl : Z.of_nat (List.length l) mod 4 = 0).
    { cbn [List.length] in Hlen. zdiv. }
    cbn [app].
    destruct (Z_lt_dec (rev_at R x) 0) as [Hx | Hx];
      [| destruct (Z_lt_dec (rev_at R y) 0) as [Hy | Hy];
         [| destruct (Z_lt_dec (rev_at R z) 0) as [Hz | Hz];
            [| destruct (Z_lt_dec (rev_at R w) 0) as [Hw | Hw]]]].
    5: { destruct (Acc_group_valid false x y z w (l ++ [c]) ac out)
           as (ac4 & ->); try lia.
         destruct (Acc_group_valid false x y z w l ac out)
           as (ac4' & ->); try lia.
         rewrite IH by exact Hl.
         destruct (rev_at R c =? 0); [| reflexivity].
         rewrite !unpadded_equiv by lia. reflexivity. }
    + rewrite !(Acc_stray false _ x) by (cbn; auto using stray_of_neg).
      destruct (rev_at R c =? 0); reflexivity.
    + rewrite !(Acc_stray false _ y) by (cbn; auto using stray_of_neg).
      destruct (rev_at R c =? 0); reflexivity.
    + rewrite !(Acc_stray false _ z) by (cbn; auto using stray_of_neg).
      destruct (rev_at R c =? 0); reflexivity.
    + rewrite !(Acc_stray false _ w) by (cbn; auto 6 using stray_of_neg).
      destruct (rev_at R c =? 0); reflexivity.
Qed.

(** ** Grouped decoder with padding: length and place of ['='] *)

Lemma Grp_padded_length (s : list Z) :
  forall out,
    Z.of_nat (List.length s) mod 4 <> 0 ->
    Grp.decode_loop R true s out = None.
Proof.
  induction s as [| x | x y | x y z | x y z w l IH] using list_ind4;
    intros out Hlen.
  - cbn in Hlen. lia.
  - apply Grp_loop_1.
  - rewrite Grp_loop_2. reflexivity.
  - rewrite Grp_loop_3. reflexivity.
  - assert (Hl : Z.of_nat (List.length l) mod 4 <> 0).
    { cbn [List.length] in Hlen. zdiv. }
    destruct (Z_lt_dec (rev_at R x) 0) as [Hx | Hx];
      [| destruct (Z_lt_dec (rev_at R y) 0) as [Hy | Hy];
         [| destruct (Z_lt_dec (rev_at R z) 0) as [Hz | Hz];
            [| destruct (Z_lt_dec (rev_at R w) 0) as [Hw | Hw]]]].
    5: { rewrite Grp_group_valid by lia. apply IH. exact Hl. }
    all: rewrite Grp_group_invalid by auto.
    all: destruct l; [cbn in Hl; lia | reflexivity].
Qed.

Lemma not_pad_of_valid (c : Z) : 0 <= rev_at R c -> Some c <> Some PAD.
Proof.
  intros Hc E. inversion E; subst. rewrite R_pad in Hc. lia.
Qed.

Lemma Grp_padded_position (s : list Z) :
  forall out res,
    Grp.decode_loop R true s out = Some res ->
    forall i, ~ misplaced_pad s i.
Proof.
  induction s as [| x | x y | x y z | x y z w l IH] using list_ind4;
    intros out res HG i [Hi Hbad].
  - destruct i; discriminate.
  - rewrite Grp_loop_1 in HG. discriminate.
  - rewrite Grp_loop_2 in HG. discriminate.
  - rewrite Grp_loop_3 in HG. discriminate.
  - destruct (Z_lt_dec (rev_at R x) 0) as [Hx | Hx];
      [| destruct (Z_lt_dec (rev_at R y) 0) as [Hy | Hy];
         [| destruct (Z_lt_dec (rev_at R z) 0) as [Hz | Hz];
            [| destruct (Z_lt_dec (rev_at R w) 0) as [Hw | Hw]]]].
    5: { rewrite Grp_group_valid in HG by lia.
         destruct i as [| [| [| [| i]]]]; cbn [nth_error] in Hi.
         1-4: eapply not_pad_of_valid; [| exact Hi]; lia.
         apply (IH _ _ HG i). split; [exact Hi |].
         intros [E | [E1 E2]]; apply Hbad; cbn [List.length nth_error] in *.
         - left. lia.
         - right. split; [lia | exact E2]. }
    all: rewrite Grp_group_invalid in HG by auto.
    all: destruct l as [| l0 l]; [| discriminate].
    all: destruct (Z.eqb_spec w PAD) as [Ew | Ew]; [| discriminate].
    all: cbn [andb] in HG; destruct (Z.eqb_spec z PAD) as [Ez | Ez].
    all: try (rewrite Grp_tail2 in HG; apply tail2_some in HG;
              destruct HG as (Hx' & Hy' & Hf & ->)).
    all: try (rewrite Grp_tail3 in HG; apply tail3_some in HG;
              destruct HG as (Hx' & Hy' & Hz' & Hf & ->)).
    all: try lia.
    all: destruct i as [| [| [| [| i]]]]; cbn [nth_error] in Hi.
    all: try (eapply not_pad_of_valid; [| exact Hi]; lia).
    all: try (apply Hbad; left; reflexivity).
    all: try (apply Hbad; right; subst w; split; reflexivity).
    all: destruct i; discriminate.
Qed.

(** ** Number of bytes decoded without padding *)

Lemma Grp_unpadded_length (s : list Z) :
  forall out res,
    Grp.decode_loop R false s out = Some res ->
    Z.of_nat (List.length res) =
    Z.of_nat (List.length out) + decoded_length (Z.of_nat (List.length s)).
Proof.
  induction s as [| x | x y | x y z | x y z w l IH] using list_ind4;
    intros out res HG.
  - rewrite Grp_loop_0 in HG. inversion HG; subst. cbn. lia.
  - rewrite Grp_loop_1 in HG. discriminate.
  - rewrite Grp_loop_2, Grp_tail2 in HG. apply tail2_some in HG.
    destruct HG as (_ & _ & _ & ->). rewrite length_app. cbn. lia.
  - rewrite Grp_loop_3, Grp_tail3 in HG. apply tail3_some in HG.
    destruct HG as (_ & _ & _ & _ & ->). rewrite length_app. cbn. lia.
  - destruct (Z_lt_dec (rev_at R x) 0) as [Hx | Hx];
      [| destruct (Z_lt_dec (rev_at R y) 0) as [Hy | Hy];
         [| destruct (Z_lt_dec (rev_at R z) 0) as [Hz | Hz];
            [| destruct (Z_lt_dec (rev_at R w) 0) as [Hw | Hw]]]].
    5: { rewrite Grp_group_valid in HG by lia.
         apply IH in HG. rewrite HG, length_app. cbn [List.length].
         unfold decoded_length.
         replace (Z.of_nat (S (S (S (S (List.length l))))))
           with (Z.of_nat (List.length l) + 1 * 4) by lia.
         rewrite Z.div_add, Z.mod_add by lia. lia. }
    all: rewrite Grp_group_invalid in HG by auto.
    all: destruct l; discriminate.
Qed.

Lemma Grp_unpadded_one (s : list Z) :
  forall out,
    Z.of_nat (List.length s) mod 4 = 1 ->
    Grp.decode_loop R false s out = None.
Proof.
  induction s as [| x | x y | x y z | x y z w l IH] using list_ind4;
    intros out Hlen; try (cbn in Hlen; lia).
  - apply Grp_loop_1.
  - assert (Hl : Z.of_nat (List.length l) mod 4 = 1)
      by (cbn [List.length] in Hlen; zdiv).
    destruct (Z_lt_dec (rev_at R x) 0) as [Hx | Hx];
      [| destruct (Z_lt_dec (rev_at R y) 0) as [Hy | Hy];
         [| destruct (Z_lt_dec (rev_at R z) 0) as [Hz | Hz];
            [| destruct (Z_lt_dec (rev_at R w) 0) as [Hw | Hw]]]].
    5: { rewrite Grp_group_valid by lia. apply IH. exact Hl. }
    all: rewrite Grp_group_invalid by auto.
    all: destruct l; reflexivity.
Qed.

(** ** Filler bits that are not zero *)

Lemma land_15 (x : Z) : Z.land x 0xf = x mod 16.
Proof. change 0xf with (Z.ones 4). rewrite Z.land_ones by lia. reflexivity. Qed.

Lemma land_3 (x : Z) : Z.land x 0x3 = x mod 4.
Proof. change 0x3 with (Z.ones 2). rewrite Z.land_ones by lia. reflexivity. Qed.

Lemma tail2_filler (r0 r1 : Z) (x : list Z) :
  r1 mod 16 <> 0 ->
  (if (0 <=? r0) && (0 <=? r1) && (r1 mod 16 =? 0) then Some x else None)
  = None.
Proof.
  intros H. apply Z.eqb_neq in H. rewrite H, andb_false_r. reflexivity.
Qed.

Lemma tail3_filler (r0 r1 r2 : Z) (x : list Z) :
  r2 mod 4 <> 0 ->
  (if (0 <=? r0) && (0 <=? r1) && (0 <=? r2) && (r2 mod 4 =? 0)
   then Some x else None) = None.
Proof.
  intros H. apply Z.eqb_neq in H. rewrite H, andb_false_r. reflexivity.
Qed.

Lemma Grp_filler_rejected (p : bool) (full tail : list Z) :
  nonzero_filler R p tail ->
  forall out,
    Z.of_nat (List.length full) mod 4 = 0 ->
    Grp.decode_loop R p (full ++ tail) out = None.
Proof.
  intros Hf.
  induction full as [| x | x y | x y z | x y z w l IH] using list_ind4;
    intros out Hlen; try (cbn in Hlen; lia).
  - cbn [app].
    destruct tail as [| a [| b [| c [| d [| e tail]]]]]; try contradiction;
      cbn in Hf.
    + destruct Hf as [-> Hf]. rewrite land_15 in Hf.
      rewrite Grp_loop_2, Grp_tail2. apply tail2_filler. exact Hf.
    + destruct Hf as [-> Hf]. rewrite land_3 in Hf.
      rewrite Grp_loop_3, Grp_tail3. apply tail3_filler. exact Hf.
    + destruct Hf as (-> & -> & Hf).
      rewrite Grp_group_invalid by (rewrite R_pad; lia).
      rewrite Z.eqb_refl. cbn [andb].
      destruct (c =? PAD).
      * rewrite land_15 in Hf. rewrite Grp_tail2. apply tail2_filler. exact Hf.
      * rewrite land_3 in Hf. rewrite Grp_tail3. apply tail3_filler. exact Hf.
  - assert (Hl : Z.of_nat (List.length l) mod 4 = 0)
      by (cbn [List.length] in Hlen; zdiv).
    cbn [app].
    destruct (Z_lt_dec (rev_at R x) 0) as [Hx | Hx];
      [| destruct (Z_lt_dec (rev_at R y) 0) as [Hy | Hy];
         [| destruct (Z_lt_dec (rev_at R z) 0) as [Hz | Hz];
            [| destruct (Z_lt_dec (rev_at R w) 0) as [Hw | Hw]]]].
    5: { rewrite Grp_group_valid by lia. apply IH. exact Hl. }
    all: rewrite Grp_group_invalid by auto.
    all: destruct (l ++ tail) eqn:E; [| reflexivity].
    all: apply app_eq_nil in E; destruct E as [_ ->]; contradiction.
Qed.

Lemma Acc_filler_rejected (full tail : list Z) :
  nonzero_filler R false tail ->
  forall out ac,
    Z.of_nat (List.length full) mod 4 = 0 ->
    Acc.decode_loop R false (full ++ tail) ac 0 out = None.
Proof.
  intros Hf out ac Hlen.
  rewrite unpadded_equiv.
  - apply Grp_filler_rejected; assumption.
  - rewrite length_app, Nat2Z.inj_add.
    destruct tail as [| a [| b [| c [| d [| e tail]]]]]; try contradiction;
      cbn in Hf; cbn [List.length];
      solve [zdiv | destruct Hf as [Hf _]; discriminate].
Qed.

(** ** Round trip through the grouped decoder *)

Section RoundTrip.

Variable T : list Z.
Hypothesis T_rev : forall i, sextet i -> rev_at R (tbl_at T i) = i.

Lemma tail2_ok (r0 r1 : Z) (x : list Z) :
  sextet r0 -> sextet r1 -> r1 mod 16 = 0 ->
  (if (0 <=? r0) && (0 <=? r1) && (r1 mod 16 =? 0) then Some x else None)
  = Some x.
Proof.
  unfold sextet. intros H0 H1 E.
  rewrite tail2_valid, E by lia. reflexivity.
Qed.

Lemma tail3_ok (r0 r1 r2 : Z) (x : list Z) :
  sextet r0 -> sextet r1 -> sextet r2 -> r2 mod 4 = 0 ->
  (if (0 <=? r0) && (0 <=? r1) && (0 <=? r2) && (r2 mod 4 =? 0)
   then Some x else None) = Some x.
Proof.
  unfold sextet. intros H0 H1 H2 E.
  rewrite tail3_valid, E by lia. reflexivity.
Qed.

Lemma Grp_roundtrip_loop (src : list Z) :
  bytes src ->
  forall out,
    Grp.decode_loop R true (Grp.encode_loop T true src) out = Some (out ++ src).
Proof.
  induction src as [| a | a b | a b c l IH] using list_ind3; intros Hb out.
  - cbn [Grp.encode_loop]. rewrite Grp_loop_0, app_nil_r. reflexivity.
  - inversion_clear Hb as [| ? ? Ha _].
    cbn [Grp.encode_loop]. rewrite Grp_enc1_sx by assumption.
    cbn [map app].
    rewrite Grp_group_invalid by (rewrite R_pad; lia).
    rewrite Z.eqb_refl. cbn [andb].
    rewrite Grp_tail2, !T_rev
      by (apply sx0_range || apply sx1_range; unfold is_byte in *; lia).
    rewrite tail2_ok;
      [ | apply sx0_range; assumption
        | apply sx1_range; unfold is_byte; lia
        | unfold sx1; zdiv ].
    rewrite by0_sx by (unfold is_byte in *; lia). reflexivity.
  - inversion_clear Hb as [| ? ? Ha Hb']. inversion_clear Hb' as [| ? ? Hb _].
    cbn [Grp.encode_loop]. rewrite Grp_enc2_sx by assumption.
    cbn [map app].
    rewrite Grp_group_invalid by (rewrite R_pad; lia).
    rewrite Z.eqb_refl. cbn [andb].
    rewrite (valid_not_pad (tbl_at T (sx2 b 0)))
      by (rewrite T_rev; apply sx2_range; unfold is_byte; lia).
    rewrite Grp_tail3, !T_rev
      by (apply sx0_range || apply sx1_range || apply sx2_range;
          unfold is_byte in *; lia).
    rewrite tail3_ok;
      [ | apply sx0_range; assumption
        | apply sx1_range; assumption
        | apply sx2_range; unfold is_byte; lia
        | unfold sx2; zdiv ].
    rewrite by0_sx, by1_sx by (unfold is_byte in *; lia). reflexivity.
  - inversion_clear Hb as [| ? ? Ha Hb']. inversion_clear Hb' as [| ? ? Hb Hb''].
    inversion_clear Hb'' as [| ? ? Hc Hl].
    cbn [Grp.encode_loop]. rewrite Grp_enc3_sx by assumption.
    cbn [map app].
    pose proof (sx0_range a Ha). pose proof (sx1_range a b Hb).
    pose proof (sx2_range b c Hc). pose proof (sx3_range c).
    rewrite Grp_group_valid by (rewrite T_rev by assumption; lia).
    rewrite !T_rev by assumption.
    rewrite by0_sx, by1_sx, by2_sx by assumption.
    rewrite IH by assumption. rewrite <- app_assoc. reflexivity.
Qed.

End RoundTrip.

End Decoders.

(** * The kernel's tables are reverse tables of their alphabets *)

Lemma maps_values (v : base64_variant) (c : Z) :
  rev_value (rev_at (base64_rev_maps v) c).
Proof. exact (rev_values v c). Qed.

Lemma maps_forward (v : base64_variant) (i : Z) :
  sextet i -> rev_at (base64_rev_maps v) (tbl_at (base64_tables v) i) = i.
Proof. exact (rev_forward v i). Qed.

Lemma Grp_roundtrip (src : list Z) (v : base64_variant) :
  bytes src ->
  Grp.base64_decode (Grp.base64_encode src true v) true v = Some src.
Proof.
  intros Hb. unfold Grp.base64_decode, Grp.base64_encode.
  rewrite Grp_roundtrip_loop;
    solve [reflexivity | apply maps_values | apply rev_pad
           | apply maps_forward | assumption].
Qed.

Lemma Acc_encode_is_Grp (src : list Z) (p : bool) (v : base64_variant) :
  bytes src -> Acc.base64_encode src p v = Grp.base64_encode src p v.
Proof.
  intros Hb. unfold Acc.base64_encode, Grp.base64_encode.
  apply encode_loop_equiv. exact Hb.
Qed.

Lemma Grp_decode_refines (s : list Z) (p : bool) (v : base64_variant)
    (res : list Z) :
  Grp.base64_decode s p v = Some res -> Acc.base64_decode s p v = Some res.
Proof.
  unfold Grp.base64_decode, Acc.base64_decode.
  apply decode_refines; solve [apply maps_values | apply rev_pad].
Qed.

Lemma decode_stray (s : list Z) (p : bool) (v : base64_variant) (c : Z) :
  In c s -> stray (base64_rev_maps v) p c ->
  Grp.base64_decode s p v = None /\ Acc.base64_decode s p v = None.
Proof.
  intros Hin Hc. unfold Grp.base64_decode, Acc.base64_decode. split.
  - apply Grp_stray with (c := c);
      solve [apply maps_values | apply rev_pad | assumption].
  - apply Acc_stray with (c := c); assumption.
Qed.

Lemma decode_unpadded_agree (s : list Z) (v : base64_variant) :
  Z.of_nat (List.length s) mod 4 <> 1 ->
  Acc.base64_decode s false v = Grp.base64_decode s false v.
Proof.
  intros Hlen. unfold Grp.base64_decode, Acc.base64_decode.
  apply unpadded_equiv;
    solve [apply maps_values | apply rev_pad | exact Hlen].
Qed.

(** Where the filler bits are looked at: the grouped decoder rejects every
    final partial group whose filler bits are not zero, with and without
    padding, and the accumulator decoder does so without padding. *)
Lemma filler_rejected (full tail : list Z) (p : bool) (v : base64_variant) :
  Z.of_nat (List.length full) mod 4 = 0 ->
  nonzero_filler (base64_rev_maps v) p tail ->
  Grp.base64_decode (full ++ tail) p v = None
  /\ (p = false -> Acc.base64_decode (full ++ tail) p v = None).
Proof.
  intros Hlen Hf. unfold Grp.base64_decode, Acc.base64_decode. split.
  - apply Grp_filler_rejected;
      solve [apply maps_values | apply rev_pad | assumption].
  - intros ->. apply Acc_filler_rejected;
      solve [apply maps_values | apply rev_pad | assumption].
Qed.

(** Two symbols without padding are accepted exactly when the four low bits
    of the second one are zero, by both decoders. *)
Lemma two_symbol_tail (a b : Z) (v : base64_variant) :
  0 <= rev_at (base64_rev_maps v) a -> 0 <= rev_at (base64_rev_maps v) b ->
  let byte := by0 (rev_at (base64_rev_maps v) a) (rev_at (base64_rev_maps v) b) in
  (Z.land (rev_at (base64_rev_maps v) b) 0xf = 0
   <-> Grp.base64_decode [a; b] false v = Some [byte])
  /\ (Z.land (rev_at (base64_rev_maps v) b) 0xf = 0
      <-> Acc.base64_decode [a; b] false v = Some [byte]).
Proof.
  intros Ha Hb byte.
  assert (HG : Z.land (rev_at (base64_rev_maps v) b) 0xf = 0
               <-> Grp.base64_decode [a; b] false v = Some [byte]).
  { unfold Grp.base64_decode. rewrite Grp_loop_2.
    rewrite (Grp_tail2 _ (maps_values v)), tail2_valid, land_15 by assumption.
    destruct (Z.eqb_spec (rev_at (base64_rev_maps v) b mod 16) 0) as [E | E].
    - split; [reflexivity | intros _; exact E].
    - split; [intros E'; contradiction | discriminate]. }
  split; [exact HG |].
  rewrite decode_unpadded_agree by (cbn; lia). exact HG.
Qed.

(** * The claims *)

(** C1. Round trip with padding: for every byte sequence and every variant,
    decoding the padded encoding with padding enabled returns the byte
    sequence, in the grouped revision and in the accumulator revision. *)
Theorem roundtrip_padded (src : list Z) (variant : base64_variant) :
  bytes src ->
  Grp.base64_decode (Grp.base64_encode src true variant) true variant
    = Some src
  /\ Acc.base64_decode (Acc.base64_encode src true variant) true variant
    = Some src.
Proof.
  intros Hb. split.
  - apply Grp_roundtrip. exact Hb.
  - rewrite Acc_encode_is_Grp by exact Hb.
    apply Grp_decode_refines. apply Grp_roundtrip. exact Hb.
Qed.

Lemma bytes_chars_check (l : list Z) :
  forallb (fun b => (0 <=? b) && (b <? 256)) l = true -> bytes l.
Proof.
  intros H. apply Forall_forall. intros b Hin.
  rewrite forallb_forall in H. specialize (H b Hin).
  apply andb_true_iff in H. unfold is_byte. lia.
Qed.

Lemma roundtrip_padded_witness :
  bytes (chars "foobar!")
  /\ Grp.base64_decode (Grp.base64_encode (chars "foobar!") true BASE64_IMAP)
       true BASE64_IMAP = Some (chars "foobar!")
  /\ Acc.base64_decode (Acc.base64_encode (chars "foobar!") true BASE64_IMAP)
       true BASE64_IMAP = Some (chars "foobar!").
Proof.
  assert (Hb : bytes (chars "foobar!"))
    by (apply bytes_chars_check; vm_compute; reflexivity).
  split; [exact Hb |].
  exact (roundtrip_padded (chars "foobar!") BASE64_IMAP Hb).
Defined.

(** C2 (fails in the accumulator revision). With padding enabled the
    accumulator decoder does not look at the filler bits of the last symbol:
    in "Zm9=" the symbol '9' has the 6-bit value 61, whose two low bits are
    filler and are not zero, and the input is decoded to "fo".  The grouped
    decoder rejects it, and the accumulator decoder itself rejects the same
    symbols when they come without padding. *)
Theorem Acc_padded_filler_unchecked :
  rev_at (base64_rev_maps BASE64_STD) 57 = 61
  /\ Z.land 61 3 <> 0
  /\ Acc.base64_decode (chars "Zm9=") true BASE64_STD = Some (chars "fo")
  /\ Acc.base64_decode (chars "Zh==") true BASE64_STD = Some (chars "f")
  /\ Grp.base64_decode (chars "Zm9=") true BASE64_STD = None
  /\ Grp.base64_decode (chars "Zh==") true BASE64_STD = None
  /\ Acc.base64_decode (chars "Zm9") false BASE64_STD = None
  /\ Grp.base64_decode (chars "Zm9") false BASE64_STD = None.
Proof. vm_compute. repeat split; discriminate. Qed.




(** The grouped decoder validates padded input: with padding enabled it
    fails on every input whose length is not a multiple of 4 and on every
    input with a ['='] that is neither the last character nor the last but
    one followed by another ['=']; it also fails on "Zm9=". *)
Lemma Grp_padded_rejects :
  (forall (s : list Z) (variant : base64_variant),
      Z.of_nat (List.length s) mod 4 <> 0 \/ (exists i, misplaced_pad s i) ->
      Grp.base64_decode s true variant = None)
  /\ Grp.base64_decode (chars "Zm9=") true BASE64_STD = None.
Proof.
  split; [| vm_compute; reflexivity].
  intros s v [Hlen | [i Hi]]; unfold Grp.base64_decode.
  - apply Grp_padded_length;
      solve [apply maps_values | apply rev_pad | exact Hlen].
  - destruct (Grp.decode_loop (base64_rev_maps v) true s []) as [res |] eqn:E;
      [| reflexivity].
    exfalso. revert Hi.
    eapply Grp_padded_position;
      solve [apply maps_values | apply rev_pad | exact E].
Qed.

Lemma Grp_padded_rejects_witness :
  (exists i, misplaced_pad (chars "Zm=v") i)
  /\ Grp.base64_decode (chars "Zm=v") true BASE64_URLSAFE = None.
Proof.
  assert (H : exists i, misplaced_pad (chars "Zm=v") i).
  { exists 2%nat. split; [reflexivity |].
    vm_compute. intros [E | [_ E]]; discriminate. }
  split; [exact H |].
  exact (proj1 Grp_padded_rejects (chars "Zm=v") BASE64_URLSAFE (or_intror H)).
Defined.

(** C4 (fails in the accumulator revision). With padding enabled the
    accumulator decoder checks neither the length of the input nor the
    place of ['=']: it decodes "Zg", whose length 2 is not a multiple of 4,
    to "f"; it decodes "Z=g=", where a ['='] stands before a symbol, to one
    byte; and it decodes "Zm9=" to "fo".  The grouped decoder rejects all
    three. *)
Theorem Acc_padded_unvalidated :
  (Z.of_nat (List.length (chars "Zg")) mod 4 <> 0
   /\ Acc.base64_decode (chars "Zg") true BASE64_STD = Some (chars "f")
   /\ Grp.base64_decode (chars "Zg") true BASE64_STD = None)
  /\ (misplaced_pad (chars "Z=g=") 1
      /\ Acc.base64_decode (chars "Z=g=") true BASE64_STD = Some [8]
      /\ Grp.base64_decode (chars "Z=g=") true BASE64_STD = None)
  /\ (Acc.base64_decode (chars "Zm9=") true BASE64_STD = Some (chars "fo")
      /\ Grp.base64_decode (chars "Zm9=") true BASE64_STD = None).
Proof.
  split; [| split].
  - split; [vm_compute; discriminate |].
    split; vm_compute; reflexivity.
  - split; [| split; vm_compute; reflexivity].
    split; [reflexivity |].
    vm_compute. intros [E | [E _]]; discriminate.
  - split; vm_compute; reflexivity.
Qed.

(** Leftover symbols without padding.  On an input with exactly one
    leftover symbol the grouped decoder fails; the accumulator decoder looks
    at the six bits of that symbol only, and when they are 0 it returns what
    it returns without the symbol.  When either decoder succeeds, two
    leftover symbols have given one byte and three leftover symbols two
    bytes, after three bytes for every full group. *)
Lemma decode_unpadded_leftover :
  (forall (s : list Z) (variant : base64_variant),
      Z.of_nat (List.length s) mod 4 = 1 ->
      Grp.base64_decode s false variant = None)
  /\ (forall (s : list Z) (c : Z) (variant : base64_variant),
         Z.of_nat (List.length s) mod 4 = 0 ->
         Acc.base64_decode (s ++ [c]) false variant =
         if rev_at (base64_rev_maps variant) c =? 0
         then Acc.base64_decode s false variant
         else None)
  /\ (forall (s : list Z) (variant : base64_variant) (res : list Z),
         Grp.base64_decode s false variant = Some res
         \/ Acc.base64_decode s false variant = Some res ->
         (Z.of_nat (List.length s) mod 4 = 2 ->
          Z.of_nat (List.length res)
          = 3 * (Z.of_nat (List.length s) / 4) + 1)
         /\ (Z.of_nat (List.length s) mod 4 = 3 ->
             Z.of_nat (List.length res)
             = 3 * (Z.of_nat (List.length s) / 4) + 2)).
Proof.
  assert (HG : forall s v res,
             Grp.base64_decode s false v = Some res ->
             Z.of_nat (List.length res)
             = decoded_length (Z.of_nat (List.length s))).
  { intros s v res H. unfold Grp.base64_decode in H.
    apply Grp_unpadded_length in H;
      try solve [apply maps_values | apply rev_pad].
    exact H. }
  split; [| split].
  - intros s v Hlen. unfold Grp.base64_decode.
    apply Grp_unpadded_one;
      solve [apply maps_values | apply rev_pad | exact Hlen].
  - intros s c v Hlen. unfold Acc.base64_decode.
    apply Acc_leftover_one;
      solve [apply maps_values | apply rev_pad | exact Hlen].
  - intros s v res H.
    assert (Hres : Z.of_nat (List.length s) mod 4 <> 1 ->
                   Z.of_nat (List.length res)
                   = decoded_length (Z.of_nat (List.length s))).
    { intros Hlen. destruct H as [H | H].
      - apply (HG s v res H).
      - rewrite decode_unpadded_agree in H by exact Hlen.
        apply (HG s v res H). }
    unfold decoded_length in Hres.
    split; intros Hlen; rewrite Hres by lia; rewrite Hlen; reflexivity.
Qed.

Lemma decode_unpadded_leftover_witness :
  Z.of_nat (List.length (chars "Zm9vY")) mod 4 = 1
  /\ Grp.base64_decode (chars "Zm9vY") false BASE64_STD = None.
Proof.
  assert (H : Z.of_nat (List.length (chars "Zm9vY")) mod 4 = 1)
    by reflexivity.
  split; [exact H |].
  exact (proj1 decode_unpadded_leftover (chars "Zm9vY") BASE64_STD H).
Defined.

(** C5 (fails in the accumulator revision). Without padding the
    accumulator decoder accepts a single leftover symbol whose 6-bit value
    is 0: "A" is decoded to the empty sequence and "Zm9vA" to "foo", though
    each leaves exactly one symbol after grouping by 4.  The grouped decoder
    rejects both, and the accumulator decoder itself rejects the single
    leftover symbol "B". *)
Theorem Acc_leftover_A_accepted :
  rev_at (base64_rev_maps BASE64_STD) 65 = 0
  /\ (Z.of_nat (List.length (chars "A")) mod 4 = 1
      /\ Acc.base64_decode (chars "A") false BASE64_STD = Some []
      /\ Grp.base64_decode (chars "A") false BASE64_STD = None)
  /\ (Z.of_nat (List.length (chars "Zm9vA")) mod 4 = 1
      /\ Acc.base64_decode (chars "Zm9vA") false BASE64_STD
         = Some (chars "foo")
      /\ Grp.base64_decode (chars "Zm9vA") false BASE64_STD = None)
  /\ Acc.base64_decode (chars "B") false BASE64_STD = None.
Proof. vm_compute. repeat split. Qed.

(** C6. For every variant and padding flag, both decoders fail on every
    input that contains a character other than ['='] whose reverse-table
    entry is the sentinel. *)
Theorem decode_rejects_foreign (s : list Z) (padding : bool)
    (variant : base64_variant) (c : Z) :
  In c s -> c <> PAD -> rev_at (base64_rev_maps variant) c = -1 ->
  Grp.base64_decode s padding variant = None
  /\ Acc.base64_decode s padding variant = None.
Proof.
  intros Hin Hc Hr. apply (decode_stray s padding variant c Hin).
  split; [exact Hr | right; exact Hc].
Qed.

Lemma decode_rejects_foreign_witness :
  (In 43 (chars "ab+d") /\ 43 <> PAD
   /\ rev_at (base64_rev_maps BASE64_URLSAFE) 43 = -1)
  /\ Grp.base64_decode (chars "ab+d") true BASE64_URLSAFE = None
  /\ Acc.base64_decode (chars "ab+d") true BASE64_URLSAFE = None.
Proof.
  assert (H1 : In 43 (chars "ab+d")) by (vm_compute; auto).
  assert (H2 : 43 <> PAD) by (vm_compute; discriminate).
  assert (H3 : rev_at (base64_rev_maps BASE64_URLSAFE) 43 = -1)
    by (vm_compute; reflexivity).
  split; [auto |].
  exact (decode_rejects_foreign (chars "ab+d") true BASE64_URLSAFE 43 H1 H2 H3).
Defined.

(** C7. For every byte sequence, padding flag and variant, both encoders
    return a result, of length [4 * ceil (n / 3)] with padding and
    [ceil (8 * n / 6)] without, where [n] is the number of source bytes; the
    empty sequence is encoded to the empty string. *)
Theorem encode_length_law :
  forall (src : list Z) (padding : bool) (variant : base64_variant),
    let n := Z.of_nat (List.length src) in
    let expected :=
      if padding then 4 * ceil_div n 3 else ceil_div (n * 8) 6 in
    Z.of_nat (List.length (Grp.base64_encode src padding variant)) = expected
    /\ Z.of_nat (List.length (Acc.base64_encode src padding variant))
       = expected
    /\ Grp.base64_encode [] padding variant = []
    /\ Acc.base64_encode [] padding variant = [].
Proof.
  intros src p v n expected. repeat split.
  - apply Grp_encode_length.
  - apply Acc_encode_length.
  - apply Acc_encode_none.
Qed.

(** C8. For every byte sequence, padding flag and variant, the two encoders
    store the same characters and return the same length. *)
Theorem encode_equivalent (src : list Z) (padding : bool)
    (variant : base64_variant) :
  bytes src ->
  Acc.base64_encode src padding variant
  = Grp.base64_encode src padding variant
  /\ List.length (Acc.base64_encode src padding variant)
     = List.length (Grp.base64_encode src padding variant).
Proof.
  intros Hb. rewrite Acc_encode_is_Grp by exact Hb. split; reflexivity.
Qed.

Lemma encode_equivalent_witness :
  bytes [0; 255; 16; 131; 7]
  /\ Acc.base64_encode [0; 255; 16; 131; 7] false BASE64_URLSAFE
     = Grp.base64_encode [0; 255; 16; 131; 7] false BASE64_URLSAFE
  /\ List.length (Acc.base64_encode [0; 255; 16; 131; 7] false BASE64_URLSAFE)
     = List.length (Grp.base64_encode [0; 255; 16; 131; 7] false BASE64_URLSAFE).
Proof.
  assert (Hb : bytes [0; 255; 16; 131; 7])
    by (apply bytes_chars_check; vm_compute; reflexivity).
  split; [exact Hb |].
  exact (encode_equivalent [0; 255; 16; 131; 7] false BASE64_URLSAFE Hb).
Defined.

(** C9. For each variant: the forward table holds 64 pairwise distinct
    symbols; it agrees with the standard one below index 62 and has the
    variant's own two symbols at 62 and 63; the reverse table sends the
    symbol of every index back to the index, and every byte that is not a
    symbol to -1. *)
Theorem tables_invariant (variant : base64_variant) :
  List.length (base64_tables variant) = 65%nat
  /\ (forall i j, 0 <= i < 64 -> 0 <= j < 64 ->
        tbl_at (base64_tables variant) i = tbl_at (base64_tables variant) j ->
        i = j)
  /\ (forall i, 0 <= i < 62 ->
        tbl_at (base64_tables variant) i
        = tbl_at (base64_tables BASE64_STD) i)
  /\ tbl_at (base64_tables variant) 62 = Z.of_nat (code (sym_62 variant))
  /\ tbl_at (base64_tables variant) 63 = Z.of_nat (code (sym_63 variant))
  /\ (forall i, 0 <= i < 64 ->
        rev_at (base64_rev_maps variant) (tbl_at (base64_tables variant) i)
        = i)
  /\ (forall c, 0 <= c < 256 ->
        (forall i, 0 <= i < 64 -> tbl_at (base64_tables variant) i <> c) ->
        rev_at (base64_rev_maps variant) c = -1).
Proof.
  split; [destruct variant; reflexivity |].
  split.
  { intros i j Hi Hj E.
    rewrite <- (rev_forward variant i Hi), <- (rev_forward variant j Hj), E.
    reflexivity. }
  split.
  { intros i Hi. apply Z.eqb_eq. revert i Hi.
    intros i Hi.
    apply (range_check
             (fun i => tbl_at (base64_tables variant) i
                       =? tbl_at (base64_tables BASE64_STD) i) 62);
      [destruct variant; vm_compute; reflexivity | lia]. }
  split; [destruct variant; reflexivity |].
  split; [destruct variant; reflexivity |].
  split; [apply rev_forward |].
  intros c Hc Hnot.
  destruct (rev_values variant c) as [E | Hs]; [exact E |].
  exfalso. apply (Hnot (rev_at (base64_rev_maps variant) c) Hs).
  apply forward_rev; lia.
Qed.

Lemma tables_invariant_witness :
  0 <= 63 < 64
  /\ rev_at (base64_rev_maps BASE64_IMAP) (tbl_at (base64_tables BASE64_IMAP) 63)
     = 63.
Proof.
  assert (H : 0 <= 63 < 64) by lia.
  split; [exact H |].
  exact (proj1 (proj2 (proj2 (proj2 (proj2 (proj2
           (tables_invariant BASE64_IMAP)))))) 63 H).
Defined.

(** C10. Without padding, both decoders fail on every input that contains
    ['='], for every variant. *)
Theorem decode_unpadded_rejects_pad (s : list Z) (variant : base64_variant) :
  In PAD s ->
  Grp.base64_decode s false variant = None
  /\ Acc.base64_decode s false variant = None.
Proof.
  intros Hin. apply (decode_stray s false variant PAD Hin).
  split; [apply rev_pad | left; reflexivity].
Qed.

Lemma decode_unpadded_rejects_pad_witness :
  In PAD (chars "Zm8=")
  /\ Grp.base64_decode (chars "Zm8=") false BASE64_STD = None
  /\ Acc.base64_decode (chars "Zm8=") false BASE64_STD = None.
Proof.
  assert (H : In PAD (chars "Zm8=")) by (vm_compute; auto).
  split; [exact H |].
  exact (decode_unpadded_rejects_pad (chars "Zm8=") BASE64_STD H).
Defined.

(** * Further properties of the encoders *)

Ltac tables :=
  solve [apply maps_values | apply rev_pad | apply maps_forward | assumption].

(** ** The shape of the output *)

Lemma pad_count_step (n : Z) : pad_count (n + 3) = pad_count n.
Proof.
  unfold pad_count. f_equal.
  replace (n + 3) with (n + 1 * 3) by lia. rewrite Z.mod_add by lia.
  reflexivity.
Qed.

Lemma Grp_encode_padding (tbl : list Z) (src : list Z) :
  Grp.encode_loop tbl true src =
  Grp.encode_loop tbl false src
  ++ repeat PAD (pad_count (Z.of_nat (List.length src))).
Proof.
  induction src as [| a | a b | a b c l IH] using list_ind3.
  - reflexivity.
  - reflexivity.
  - reflexivity.
  - cbn [Grp.encode_loop]. rewrite IH, app_assoc.
    replace (Z.of_nat (List.length (a :: b :: c :: l)))
      with (Z.of_nat (List.length l) + 3) by (cbn [List.length]; lia).
    rewrite pad_count_step. reflexivity.
Qed.

Lemma Acc_encode_padding (tbl : list Z) (src : list Z) :
  forall ac,
    Acc.encode_loop tbl true src ac 0 =
    Acc.encode_loop tbl false src ac 0
    ++ repeat PAD (pad_count (Z.of_nat (List.length src))).
Proof.
  induction src as [| a | a b | a b c l IH] using list_ind3; intros ac.
  - rewrite !Acc_encode_none. reflexivity.
  - rewrite !Acc_encode_one. cbv zeta. rewrite <- app_assoc. reflexivity.
  - rewrite !Acc_encode_two. cbv zeta. rewrite <- app_assoc. reflexivity.
  - rewrite !Acc_encode_group. cbv zeta. rewrite IH, app_assoc.
    replace (Z.of_nat (List.length (a :: b :: c :: l)))
      with (Z.of_nat (List.length l) + 3) by (cbn [List.length]; lia).
    rewrite pad_count_step. reflexivity.
Qed.

(** X1. The padded output of either encoder is its unpadded output followed
    by as many ['='] as bring the number of source bytes up to a multiple
    of 3. *)
Theorem encode_padding_suffix :
  forall (src : list Z) (variant : base64_variant),
    Grp.base64_encode src true variant
    = Grp.base64_encode src false variant
      ++ repeat PAD (pad_count (Z.of_nat (List.length src)))
    /\ Acc.base64_encode src true variant
       = Acc.base64_encode src false variant
         ++ repeat PAD (pad_count (Z.of_nat (List.length src))).
Proof.
  intros src v. split.
  - apply Grp_encode_padding.
  - apply Acc_encode_padding.
Qed.

(** ** Only symbols of the alphabet *)

Lemma in_alphabet_sym (v : base64_variant) (i : Z) :
  0 <= i < 64 -> in_alphabet v (tbl_at (base64_tables v) i).
Proof. intros Hi. exists i. split; [exact Hi | reflexivity]. Qed.

Lemma Grp_encode_alphabet (v : base64_variant) (src : list Z) :
  bytes src ->
  Forall (in_alphabet v) (Grp.encode_loop (base64_tables v) false src).
Proof.
  induction src as [| a | a b | a b c l IH] using list_ind3; intros Hb.
  - constructor.
  - inversion_clear Hb as [| ? ? Ha _].
    cbn [Grp.encode_loop]. rewrite Grp_enc1_sx by assumption.
    cbn [map app].
    repeat constructor; apply in_alphabet_sym;
      solve [apply sx0_range; assumption
            | apply sx1_range; unfold is_byte; lia].
  - inversion_clear Hb as [| ? ? Ha Hb']. inversion_clear Hb' as [| ? ? Hb _].
    cbn [Grp.encode_loop]. rewrite Grp_enc2_sx by assumption.
    cbn [map app].
    repeat constructor; apply in_alphabet_sym;
      solve [apply sx0_range; assumption
            | apply sx1_range; assumption
            | apply sx2_range; unfold is_byte; lia].
  - inversion_clear Hb as [| ? ? Ha Hb']. inversion_clear Hb' as [| ? ? Hb Hb''].
    inversion_clear Hb'' as [| ? ? Hc Hl].
    cbn [Grp.encode_loop]. rewrite Grp_enc3_sx by assumption.
    cbn [map app].
    repeat (constructor;
            [apply in_alphabet_sym;
             solve [apply sx0_range; assumption
                   | apply sx1_range; assumption
                   | apply sx2_range; assumption
                   | apply sx3_range] |]).
    apply IH. exact Hl.
Qed.

(** X2. Without padding either encoder stores symbols of the variant's
    alphabet only; with padding it stores such symbols and ['=']. *)
Theorem encode_alphabet (src : list Z) (variant : base64_variant) :
  bytes src ->
  Forall (in_alphabet variant) (Grp.base64_encode src false variant)
  /\ Forall (in_alphabet variant) (Acc.base64_encode src false variant)
  /\ Forall (fun ch => in_alphabet variant ch \/ ch = PAD)
       (Grp.base64_encode src true variant)
  /\ Forall (fun ch => in_alphabet variant ch \/ ch = PAD)
       (Acc.base64_encode src true variant).
Proof.
  intros Hb.
  assert (HG : Forall (in_alphabet variant)
                 (Grp.base64_encode src false variant))
    by (apply Grp_encode_alphabet; exact Hb).
  assert (HP : Forall (fun ch => in_alphabet variant ch \/ ch = PAD)
                 (Grp.base64_encode src true variant)).
  { unfold Grp.base64_encode in *. rewrite Grp_encode_padding.
    apply Forall_app. split.
    - eapply Forall_impl; [| exact HG]. intros ch H. left. exact H.
    - apply Forall_forall. intros ch H. apply repeat_spec in H.
      right. exact H. }
  rewrite !Acc_encode_is_Grp by exact Hb. auto.
Qed.

Lemma encode_alphabet_witness :
  bytes (chars "any carnal pleas")
  /\ Forall (in_alphabet BASE64_IMAP)
       (Grp.base64_encode (chars "any carnal pleas") false BASE64_IMAP).
Proof.
  assert (Hb : bytes (chars "any carnal pleas"))
    by (apply bytes_chars_check; vm_compute; reflexivity).
  split; [exact Hb |].
  exact (proj1 (encode_alphabet (chars "any carnal pleas") BASE64_IMAP Hb)).
Defined.

(** ** The variants differ by two symbols *)

Lemma translate_sym (v : base64_variant) (i : Z) :
  0 <= i < 64 ->
  tbl_at (base64_tables v) i = translate v (tbl_at (base64_tables BASE64_STD) i).
Proof.
  intros Hi. apply Z.eqb_eq. revert i Hi.
  apply (range_check
           (fun i => tbl_at (base64_tables v) i
                     =? translate v (tbl_at (base64_tables BASE64_STD) i)) 64).
  destruct v; vm_compute; reflexivity.
Qed.

Lemma translate_pad (v : base64_variant) : translate v PAD = PAD.
Proof. destruct v; reflexivity. Qed.

Lemma Grp_encode_translate (v : base64_variant) (p : bool) (src : list Z) :
  bytes src ->
  Grp.encode_loop (base64_tables v) p src
  = map (translate v) (Grp.encode_loop (base64_tables BASE64_STD) p src).
Proof.
  induction src as [| a | a b | a b c l IH] using list_ind3; intros Hb.
  - reflexivity.
  - inversion_clear Hb as [| ? ? Ha _].
    cbn [Grp.encode_loop]. rewrite !Grp_enc1_sx by assumption.
    rewrite map_app. cbn [map].
    rewrite <- !translate_sym
      by (apply sx0_range || apply sx1_range; unfold is_byte in *; lia).
    destruct p; cbn [map]; rewrite ?translate_pad; reflexivity.
  - inversion_clear Hb as [| ? ? Ha Hb']. inversion_clear Hb' as [| ? ? Hb _].
    cbn [Grp.encode_loop]. rewrite !Grp_enc2_sx by assumption.
    rewrite map_app. cbn [map].
    rewrite <- !translate_sym
      by (apply sx0_range || apply sx1_range || apply sx2_range;
          unfold is_byte in *; lia).
    destruct p; cbn [map]; rewrite ?translate_pad; reflexivity.
  - inversion_clear Hb as [| ? ? Ha Hb']. inversion_clear Hb' as [| ? ? Hb Hb''].
    inversion_clear Hb'' as [| ? ? Hc Hl].
    cbn [Grp.encode_loop]. rewrite !Grp_enc3_sx by assumption.
    rewrite map_app. cbn [map].
    rewrite <- !translate_sym
      by (apply sx0_range || apply sx1_range || apply sx2_range
          || apply sx3_range; assumption).
    rewrite IH by exact Hl. reflexivity.
Qed.

(** X3. The output of either encoder for a variant is its output for the
    standard variant with ['+'] and ['/'] replaced by the variant's symbols
    for 62 and 63, and nothing else changed. *)
Theorem encode_variant_translate (src : list Z) (padding : bool)
    (variant : base64_variant) :
  bytes src ->
  Grp.base64_encode src padding variant
  = map (translate variant) (Grp.base64_encode src padding BASE64_STD)
  /\ Acc.base64_encode src padding variant
     = map (translate variant) (Acc.base64_encode src padding BASE64_STD).
Proof.
  intros Hb. rewrite !Acc_encode_is_Grp by exact Hb.
  split; apply Grp_encode_translate; exact Hb.
Qed.

Lemma encode_variant_translate_witness :
  bytes [251; 255; 191; 62]
  /\ Grp.base64_encode [251; 255; 191; 62] true BASE64_URLSAFE
     = map (translate BASE64_URLSAFE)
         (Grp.base64_encode [251; 255; 191; 62] true BASE64_STD).
Proof.
  assert (Hb : bytes [251; 255; 191; 62])
    by (apply bytes_chars_check; vm_compute; reflexivity).
  split; [exact Hb |].
  exact (proj1 (encode_variant_translate [251; 255; 191; 62] true
                  BASE64_URLSAFE Hb)).
Defined.

(** ** Encoding in pieces *)

Lemma Grp_encode_app (tbl : list Z) (p : bool) (src1 src2 : list Z) :
  Z.of_nat (List.length src1) mod 3 = 0 ->
  Grp.encode_loop tbl p (src1 ++ src2)
  = Grp.encode_loop tbl false src1 ++ Grp.encode_loop tbl p src2.
Proof.
  induction src1 as [| a | a b | a b c l IH] using list_ind3; intros Hlen;
    try (cbn in Hlen; lia).
  - reflexivity.
  - assert (Hl : Z.of_nat (List.length l) mod 3 = 0)
      by (cbn [List.length] in Hlen; zdiv).
    cbn [app Grp.encode_loop]. rewrite IH by exact Hl.
    apply app_assoc.
Qed.

(** X4. A source cut after a multiple of 3 bytes can be encoded piece by
    piece: the output for the whole is the unpadded output for the first
    piece followed by the output for the second. *)
Theorem encode_app (src1 src2 : list Z) (padding : bool)
    (variant : base64_variant) :
  bytes src1 -> bytes src2 ->
  Z.of_nat (List.length src1) mod 3 = 0 ->
  Grp.base64_encode (src1 ++ src2) padding variant
  = Grp.base64_encode src1 false variant
    ++ Grp.base64_encode src2 padding variant
  /\ Acc.base64_encode (src1 ++ src2) padding variant
     = Acc.base64_encode src1 false variant
       ++ Acc.base64_encode src2 padding variant.
Proof.
  intros H1 H2 Hlen.
  rewrite !Acc_encode_is_Grp
    by (try apply Forall_app; auto).
  split; apply Grp_encode_app; exact Hlen.
Qed.

Lemma encode_app_witness :
  (bytes (chars "foo") /\ bytes (chars "ba")
   /\ Z.of_nat (List.length (chars "foo")) mod 3 = 0)
  /\ Acc.base64_encode (chars "foo" ++ chars "ba") true BASE64_STD
     = Acc.base64_encode (chars "foo") false BASE64_STD
       ++ Acc.base64_encode (chars "ba") true BASE64_STD.
Proof.
  assert (H1 : bytes (chars "foo"))
    by (apply bytes_chars_check; vm_compute; reflexivity).
  assert (H2 : bytes (chars "ba"))
    by (apply bytes_chars_check; vm_compute; reflexivity).
  assert (H3 : Z.of_nat (List.length (chars "foo")) mod 3 = 0)
    by reflexivity.
  split; [auto |].
  exact (proj2 (encode_app (chars "foo") (chars "ba") true BASE64_STD
                  H1 H2 H3)).
Defined.

(** * Further properties of the decoders *)

(** ** Round trip without padding *)

Lemma Grp_roundtrip_unpadded_loop (v : base64_variant) (src : list Z) :
  bytes src ->
  forall out,
    Grp.decode_loop (base64_rev_maps v) false
      (Grp.encode_loop (base64_tables v) false src) out
    = Some (out ++ src).
Proof.
  induction src as [| a | a b | a b c l IH] using list_ind3; intros Hb out.
  - cbn [Grp.encode_loop]. rewrite Grp_loop_0, app_nil_r. reflexivity.
  - inversion_clear Hb as [| ? ? Ha _].
    cbn [Grp.encode_loop]. rewrite Grp_enc1_sx by assumption.
    cbn [map app].
    rewrite Grp_loop_2, Grp_tail2 by tables.
    rewrite !maps_forward
      by (apply sx0_range || apply sx1_range; unfold is_byte in *; lia).
    rewrite tail2_ok;
      [ | apply sx0_range; assumption
        | apply sx1_range; unfold is_byte; lia
        | unfold sx1; zdiv ].
    rewrite by0_sx by (unfold is_byte in *; lia). reflexivity.
  - inversion_clear Hb as [| ? ? Ha Hb']. inversion_clear Hb' as [| ? ? Hb _].
    cbn [Grp.encode_loop]. rewrite Grp_enc2_sx by assumption.
    cbn [map app].
    rewrite Grp_loop_3, Grp_tail3 by tables.
    rewrite !maps_forward
      by (apply sx0_range || apply sx1_range || apply sx2_range;
          unfold is_byte in *; lia).
    rewrite tail3_ok;
      [ | apply sx0_range; assumption
        | apply sx1_range; assumption
        | apply sx2_range; unfold is_byte; lia
        | unfold sx2; zdiv ].
    rewrite by0_sx, by1_sx by (unfold is_byte in *; lia). reflexivity.
  - inversion_clear Hb as [| ? ? Ha Hb']. inversion_clear Hb' as [| ? ? Hb Hb''].
    inversion_clear Hb'' as [| ? ? Hc Hl].
    cbn [Grp.encode_loop]. rewrite Grp_enc3_sx by assumption.
    cbn [map app].
    pose proof (sx0_range a Ha). pose proof (sx1_range a b Hb).
    pose proof (sx2_range b c Hc). pose proof (sx3_range c).
    rewrite Grp_group_valid
      by (try apply maps_values; rewrite maps_forward by assumption; lia).
    rewrite !maps_forward by assumption.
    rewrite by0_sx, by1_sx, by2_sx by assumption.
    rewrite IH by assumption. rewrite <- app_assoc. reflexivity.
Qed.

Lemma Grp_roundtrip_unpadded (src : list Z) (v : base64_variant) :
  bytes src ->
  Grp.base64_decode (Grp.base64_encode src false v) false v = Some src.
Proof.
  intros Hb. unfold Grp.base64_decode, Grp.base64_encode.
  rewrite Grp_roundtrip_unpadded_loop by exact Hb. reflexivity.
Qed.

(** X5. Round trip without padding: for every byte sequence and every
    variant, decoding the unpadded encoding with padding disabled returns
    the byte sequence, in both revisions. *)
Theorem roundtrip_unpadded (src : list Z) (variant : base64_variant) :
  bytes src ->
  Grp.base64_decode (Grp.base64_encode src false variant) false variant
    = Some src
  /\ Acc.base64_decode (Acc.base64_encode src false variant) false variant
    = Some src.
Proof.
  intros Hb. split.
  - apply Grp_roundtrip_unpadded. exact Hb.
  - rewrite Acc_encode_is_Grp by exact Hb.
    apply Grp_decode_refines. apply Grp_roundtrip_unpadded. exact Hb.
Qed.

Lemma roundtrip_unpadded_witness :
  bytes [0; 16; 131; 255; 7]
  /\ Grp.base64_decode (Grp.base64_encode [0; 16; 131; 255; 7] false
                          BASE64_URLSAFE) false BASE64_URLSAFE
     = Some [0; 16; 131; 255; 7]
  /\ Acc.base64_decode (Acc.base64_encode [0; 16; 131; 255; 7] false
                          BASE64_URLSAFE) false BASE64_URLSAFE
     = Some [0; 16; 131; 255; 7].
Proof.
  assert (Hb : bytes [0; 16; 131; 255; 7])
    by (apply bytes_chars_check; vm_compute; reflexivity).
  split; [exact Hb |].
  exact (roundtrip_unpadded [0; 16; 131; 255; 7] BASE64_URLSAFE Hb).
Defined.

(** X6. Either encoder is injective on byte sequences, with and without
    padding: two sources with the same output are equal. *)
Theorem encode_injective (src1 src2 : list Z) (padding : bool)
    (variant : base64_variant) :
  bytes src1 -> bytes src2 ->
  (Grp.base64_encode src1 padding variant
   = Grp.base64_encode src2 padding variant -> src1 = src2)
  /\ (Acc.base64_encode src1 padding variant
      = Acc.base64_encode src2 padding variant -> src1 = src2).
Proof.
  intros H1 H2.
  assert (HG : Grp.base64_encode src1 padding variant
               = Grp.base64_encode src2 padding variant -> src1 = src2).
  { intros E.
    assert (Some src1 = Some src2) as HS; [| inversion HS; reflexivity].
    destruct padding.
    - rewrite <- (Grp_roundtrip src1 variant H1),
        <- (Grp_roundtrip src2 variant H2), E. reflexivity.
    - rewrite <- (Grp_roundtrip_unpadded src1 variant H1),
        <- (Grp_roundtrip_unpadded src2 variant H2), E. reflexivity. }
  split; [exact HG |].
  rewrite !Acc_encode_is_Grp by assumption. exact HG.
Qed.

Lemma encode_injective_witness :
  (bytes (chars "ab") /\ bytes (chars "ab"))
  /\ (Acc.base64_encode (chars "ab") true BASE64_STD
      = Acc.base64_encode (chars "ab") true BASE64_STD ->
      chars "ab" = chars "ab").
Proof.
  assert (Hb : bytes (chars "ab"))
    by (apply bytes_chars_check; vm_compute; reflexivity).
  split; [auto |].
  exact (proj2 (encode_injective (chars "ab") (chars "ab") true BASE64_STD
                  Hb Hb)).
Defined.

(** ** The grouped decoder accepts canonical encodings only *)

Lemma valid_is_byte (v : base64_variant) (c : Z) :
  0 <= rev_at (base64_rev_maps v) c -> is_byte c.
Proof.
  unfold rev_at, is_byte. intros Hc.
  destruct (Z_lt_dec c 0) as [Hneg | Hpos].
  - exfalso. destruct c as [| q | q]; try lia.
    change (Z.to_nat (Z.neg q)) with 0%nat in Hc.
    revert Hc. destruct v; vm_compute; intros Hc; apply Hc; reflexivity.
  - split; [lia |].
    destruct (Z_lt_dec c 256) as [Hlt | Hge]; [exact Hlt |].
    exfalso. rewrite nth_overflow in Hc; [lia |].
    replace (List.length (base64_rev_maps v)) with 256%nat
      by (destruct v; vm_compute; reflexivity).
    lia.
Qed.

Lemma sym_of_valid (v : base64_variant) (c : Z) :
  0 <= rev_at (base64_rev_maps v) c ->
  tbl_at (base64_tables v) (rev_at (base64_rev_maps v) c) = c.
Proof.
  intros Hc. apply forward_rev; [| exact Hc].
  apply valid_is_byte in Hc. unfold is_byte in Hc. lia.
Qed.

Lemma by0_byte r0 r1 : sextet r0 -> sextet r1 -> is_byte (by0 r0 r1).
Proof. unfold sextet, by0. intros. zdiv. Qed.
Lemma by1_byte r1 r2 : sextet r2 -> is_byte (by1 r1 r2).
Proof. unfold sextet, by1. intros. zdiv. Qed.
Lemma by2_byte r2 r3 : sextet r3 -> is_byte (by2 r2 r3).
Proof. unfold sextet, by2. intros. zdiv. Qed.

Lemma sx0_by r0 r1 : sextet r0 -> sextet r1 -> sx0 (by0 r0 r1) = r0.
Proof. unfold sextet, sx0, by0. intros. zdiv. Qed.
Lemma sx1_by r0 r1 r2 :
  sextet r0 -> sextet r1 -> sextet r2 -> sx1 (by0 r0 r1) (by1 r1 r2) = r1.
Proof. unfold sextet, sx1, by0, by1. intros. zdiv. Qed.
Lemma sx2_by r1 r2 r3 :
  sextet r1 -> sextet r2 -> sextet r3 -> sx2 (by1 r1 r2) (by2 r2 r3) = r2.
Proof. unfold sextet, sx2, by1, by2. intros. zdiv. Qed.
Lemma sx3_by r2 r3 : sextet r3 -> sx3 (by2 r2 r3) = r3.
Proof. unfold sextet, sx3, by2. intros. zdiv. Qed.
Lemma sx1_by_last r0 r1 :
  sextet r0 -> sextet r1 -> r1 mod 16 = 0 -> sx1 (by0 r0 r1) 0 = r1.
Proof. unfold sextet, sx1, by0. intros. zdiv. Qed.
Lemma sx2_by_last r1 r2 :
  sextet r1 -> sextet r2 -> r2 mod 4 = 0 -> sx2 (by1 r1 r2) 0 = r2.
Proof. unfold sextet, sx2, by1. intros. zdiv. Qed.

Lemma sextet_valid (v : base64_variant) (c : Z) :
  0 <= rev_at (base64_rev_maps v) c -> sextet (rev_at (base64_rev_maps v) c).
Proof. apply sextet_of_valid. apply maps_values. Qed.

(** The symbols of one, two and three bytes read back from table values. *)
Lemma enc1_of_values (v : base64_variant) (p : bool) (x y : Z) :
  0 <= rev_at (base64_rev_maps v) x -> 0 <= rev_at (base64_rev_maps v) y ->
  rev_at (base64_rev_maps v) y mod 16 = 0 ->
  Grp.enc1 (base64_tables v) p
    (by0 (rev_at (base64_rev_maps v) x) (rev_at (base64_rev_maps v) y))
  = [x; y] ++ (if p then [PAD; PAD] else []).
Proof.
  intros Hx Hy Hf.
  pose proof (sextet_valid v x Hx) as Sx. pose proof (sextet_valid v y Hy) as Sy.
  rewrite Grp_enc1_sx by (apply by0_byte; assumption).
  cbn [map]. rewrite sx0_by, sx1_by_last by assumption.
  rewrite !sym_of_valid by assumption. reflexivity.
Qed.

Lemma enc2_of_values (v : base64_variant) (p : bool) (x y z : Z) :
  0 <= rev_at (base64_rev_maps v) x -> 0 <= rev_at (base64_rev_maps v) y ->
  0 <= rev_at (base64_rev_maps v) z ->
  rev_at (base64_rev_maps v) z mod 4 = 0 ->
  Grp.enc2 (base64_tables v) p
    (by0 (rev_at (base64_rev_maps v) x) (rev_at (base64_rev_maps v) y))
    (by1 (rev_at (base64_rev_maps v) y) (rev_at (base64_rev_maps v) z))
  = [x; y; z] ++ (if p then [PAD] else []).
Proof.
  intros Hx Hy Hz Hf.
  pose proof (sextet_valid v x Hx) as Sx. pose proof (sextet_valid v y Hy) as Sy.
  pose proof (sextet_valid v z Hz) as Sz.
  rewrite Grp_enc2_sx by (apply by0_byte || apply by1_byte; assumption).
  cbn [map]. rewrite sx0_by, sx1_by, sx2_by_last by assumption.
  rewrite !sym_of_valid by assumption. reflexivity.
Qed.

Lemma enc3_of_values (v : base64_variant) (x y z w : Z) :
  0 <= rev_at (base64_rev_maps v) x -> 0 <= rev_at (base64_rev_maps v) y ->
  0 <= rev_at (base64_rev_maps v) z -> 0 <= rev_at (base64_rev_maps v) w ->
  Grp.enc3 (base64_tables v)
    (by0 (rev_at (base64_rev_maps v) x) (rev_at (base64_rev_maps v) y))
    (by1 (rev_at (base64_rev_maps v) y) (rev_at (base64_rev_maps v) z))
    (by2 (rev_at (base64_rev_maps v) z) (rev_at (base64_rev_maps v) w))
  = [x; y; z; w].
Proof.
  intros Hx Hy Hz Hw.
  pose proof (sextet_valid v x Hx) as Sx. pose proof (sextet_valid v y Hy) as Sy.
  pose proof (sextet_valid v z Hz) as Sz. pose proof (sextet_valid v w Hw) as Sw.
  rewrite Grp_enc3_sx
    by (apply by0_byte || apply by1_byte || apply by2_byte; assumption).
  cbn [map]. rewrite sx0_by, sx1_by, sx2_by, sx3_by by assumption.
  rewrite !sym_of_valid by assumption. reflexivity.
Qed.

Ltac decoded_bytes :=
  repeat (apply Forall_cons;
          [ solve [ (apply by0_byte || apply by1_byte || apply by2_byte);
                    apply sextet_valid; assumption ] |]);
  try apply Forall_nil; try assumption.

Lemma Grp_canonical_loop (v : base64_variant) (p : bool) (s : list Z) :
  forall out res,
    Grp.decode_loop (base64_rev_maps v) p s out = Some res ->
    exists dst,
      res = out ++ dst /\ bytes dst
      /\ Grp.encode_loop (base64_tables v) p dst = s.
Proof.
  induction s as [| x | x y | x y z | x y z w l IH] using list_ind4;
    intros out res HG.
  - rewrite Grp_loop_0 in HG. inversion HG; subst.
    exists []. rewrite app_nil_r. repeat split. constructor.
  - rewrite Grp_loop_1 in HG. discriminate.
  - rewrite Grp_loop_2 in HG. destruct p; [discriminate |].
    rewrite Grp_tail2 in HG by tables. apply tail2_some in HG.
    destruct HG as (Hx & Hy & Hf & ->).
    eexists. split; [reflexivity |]. split.
    + decoded_bytes.
    + cbn [Grp.encode_loop]. rewrite enc1_of_values by assumption.
      reflexivity.
  - rewrite Grp_loop_3 in HG. destruct p; [discriminate |].
    rewrite Grp_tail3 in HG by tables. apply tail3_some in HG.
    destruct HG as (Hx & Hy & Hz & Hf & ->).
    eexists. split; [reflexivity |]. split.
    + decoded_bytes.
    + cbn [Grp.encode_loop]. rewrite enc2_of_values by assumption.
      reflexivity.
  - destruct (Z_lt_dec (val4 (rev_at (base64_rev_maps v) x)
                          (rev_at (base64_rev_maps v) y)
                          (rev_at (base64_rev_maps v) z)
                          (rev_at (base64_rev_maps v) w)) 0) as [Hv | Hv];
      rewrite val4_neg in Hv.
    + rewrite Grp_group_invalid in HG by exact Hv.
      destruct l as [| l0 l]; [| discriminate].
      destruct p; [| discriminate].
      destruct (Z.eqb_spec w PAD) as [Ew | Ew]; [| discriminate].
      cbn [andb] in HG. destruct (Z.eqb_spec z PAD) as [Ez | Ez].
      * rewrite Grp_tail2 in HG by tables. apply tail2_some in HG.
        destruct HG as (Hx & Hy & Hf & ->).
        eexists. split; [reflexivity |]. split.
        -- decoded_bytes.
        -- cbn [Grp.encode_loop]. rewrite enc1_of_values by assumption.
           subst z w. reflexivity.
      * rewrite Grp_tail3 in HG by tables. apply tail3_some in HG.
        destruct HG as (Hx & Hy & Hz & Hf & ->).
        eexists. split; [reflexivity |]. split.
        -- decoded_bytes.
        -- cbn [Grp.encode_loop]. rewrite enc2_of_values by assumption.
           subst w. reflexivity.
    + assert (Hx : 0 <= rev_at (base64_rev_maps v) x) by lia.
      assert (Hy : 0 <= rev_at (base64_rev_maps v) y) by lia.
      assert (Hz : 0 <= rev_at (base64_rev_maps v) z) by lia.
      assert (Hw : 0 <= rev_at (base64_rev_maps v) w) by lia.
      rewrite Grp_group_valid in HG by tables.
      apply IH in HG. destruct HG as (dst & -> & Hb & Henc).
      eexists. split; [rewrite <- app_assoc; reflexivity |]. split.
      * cbn [app]. decoded_bytes.
      * cbn [app Grp.encode_loop].
        rewrite enc3_of_values by assumption. rewrite Henc. reflexivity.
Qed.

(** X7. Whatever the grouped decoder accepts is the encoding of what it
    returns: if it decodes [s] to [dst], then [dst] is a sequence of bytes
    and encoding [dst] with the same padding flag and variant gives back
    [s], character for character. *)
Theorem Grp_decode_canonical (s : list Z) (padding : bool)
    (variant : base64_variant) (dst : list Z) :
  Grp.base64_decode s padding variant = Some dst ->
  bytes dst
  /\ Grp.base64_encode dst padding variant = s
  /\ Acc.base64_encode dst padding variant = s.
Proof.
  intros H. unfold Grp.base64_decode in H.
  apply Grp_canonical_loop in H. destruct H as (d & E & Hb & Henc).
  cbn [app] in E. subst d.
  split; [exact Hb |].
  rewrite Acc_encode_is_Grp by exact Hb. split; exact Henc.
Qed.

Lemma Grp_decode_canonical_witness :
  Grp.base64_decode (chars "Zm9vYg==") true BASE64_STD = Some (chars "foob")
  /\ bytes (chars "foob")
  /\ Grp.base64_encode (chars "foob") true BASE64_STD = chars "Zm9vYg=="
  /\ Acc.base64_encode (chars "foob") true BASE64_STD = chars "Zm9vYg==".
Proof.
  assert (H : Grp.base64_decode (chars "Zm9vYg==") true BASE64_STD
              = Some (chars "foob")) by (vm_compute; reflexivity).
  split; [exact H |].
  exact (Grp_decode_canonical (chars "Zm9vYg==") true BASE64_STD
           (chars "foob") H).
Defined.

(** X8. Without padding the accumulator decoder is canonical as well, on
    every input that does not leave a single leftover symbol: what it
    returns encodes back to the input. *)
Theorem Acc_decode_unpadded_canonical (s : list Z) (variant : base64_variant)
    (dst : list Z) :
  Z.of_nat (List.length s) mod 4 <> 1 ->
  Acc.base64_decode s false variant = Some dst ->
  bytes dst /\ Acc.base64_encode dst false variant = s.
Proof.
  intros Hlen H. rewrite decode_unpadded_agree in H by exact Hlen.
  unfold Grp.base64_decode in H.
  apply Grp_canonical_loop in H. destruct H as (d & E & Hb & Henc).
  cbn [app] in E. subst d.
  split; [exact Hb |].
  rewrite Acc_encode_is_Grp by exact Hb. exact Henc.
Qed.

Lemma Acc_decode_unpadded_canonical_witness :
  (Z.of_nat (List.length (chars "Zm9vYg")) mod 4 <> 1
   /\ Acc.base64_decode (chars "Zm9vYg") false BASE64_STD
      = Some (chars "foob"))
  /\ bytes (chars "foob")
  /\ Acc.base64_encode (chars "foob") false BASE64_STD = chars "Zm9vYg".
Proof.
  assert (H1 : Z.of_nat (List.length (chars "Zm9vYg")) mod 4 <> 1)
    by (vm_compute; discriminate).
  assert (H2 : Acc.base64_decode (chars "Zm9vYg") false BASE64_STD
               = Some (chars "foob")) by (vm_compute; reflexivity).
  split; [auto |].
  exact (Acc_decode_unpadded_canonical (chars "Zm9vYg") BASE64_STD
           (chars "foob") H1 H2).
Defined.

(** ** The padding flag on inputs without ['='] *)

Lemma Acc_flag_no_pad (R : list Z) (s : list Z) :
  ~ In PAD s ->
  forall ac bits out,
    Acc.decode_loop R true s ac bits out
    = Acc.decode_loop R false s ac bits out.
Proof.
  induction s as [| c s IH]; intros Hnot ac bits out; [reflexivity |].
  assert (Hc : (c =? PAD) = false)
    by (apply Z.eqb_neq; intros ->; apply Hnot; left; reflexivity).
  assert (Hs : ~ In PAD s) by (intros H; apply Hnot; right; exact H).
  cbn [Acc.decode_loop]. rewrite Hc. cbn [andb].
  destruct (rev_at R c =? -1); [reflexivity |].
  destruct (8 <=? bits + 6); apply IH; exact Hs.
Qed.

Lemma Grp_flag_no_pad (R : list Z) (s : list Z) :
  ~ In PAD s ->
  forall out,
    Z.of_nat (List.length s) mod 4 = 0 ->
    Grp.decode_loop R true s out = Grp.decode_loop R false s out.
Proof.
  induction s as [| x | x y | x y z | x y z w l IH] using list_ind4;
    intros Hnot out Hlen; try (cbn in Hlen; lia).
  - reflexivity.
  - assert (Hl : Z.of_nat (List.length l) mod 4 = 0)
      by (cbn [List.length] in Hlen; zdiv).
    assert (Hw : (w =? PAD) = false)
      by (apply Z.eqb_neq; intros ->; apply Hnot; cbn; auto).
    rewrite !Grp_loop_group. cbv zeta.
    destruct (val4 (rev_at R x) (rev_at R y) (rev_at R z) (rev_at R w) <? 0).
    + rewrite Hw. cbn [negb orb]. rewrite orb_true_r. reflexivity.
    + apply IH; [| exact Hl]. intros H. apply Hnot. cbn. auto 6.
Qed.

(** X9. On an input without ['='] the padding flag does not matter to the
    accumulator decoder; it does not matter to the grouped decoder either
    when the length is a multiple of 4. *)
Theorem decode_flag_without_pad (s : list Z) (variant : base64_variant) :
  ~ In PAD s ->
  Acc.base64_decode s true variant = Acc.base64_decode s false variant
  /\ (Z.of_nat (List.length s) mod 4 = 0 ->
      Grp.base64_decode s true variant = Grp.base64_decode s false variant).
Proof.
  intros Hnot. split.
  - apply Acc_flag_no_pad. exact Hnot.
  - intros Hlen. apply Grp_flag_no_pad; assumption.
Qed.

Lemma decode_flag_without_pad_witness :
  ~ In PAD (chars "Zm9vYg")
  /\ Acc.base64_decode (chars "Zm9vYg") true BASE64_STD
     = Acc.base64_decode (chars "Zm9vYg") false BASE64_STD.
Proof.
  assert (H : ~ In PAD (chars "Zm9vYg")).
  { vm_compute. intros [E | [E | [E | [E | [E | [E | []]]]]]]; discriminate. }
  split; [exact H |].
  exact (proj1 (decode_flag_without_pad (chars "Zm9vYg") BASE64_STD H)).
Defined.

(** ** How much is decoded *)

Lemma u8_byte (x : Z) : is_byte (u8 x).
Proof. unfold is_byte, u8. apply Z.mod_pos_bound. reflexivity. Qed.

Lemma Acc_out_bound (R : list Z) (p : bool) (s : list Z) :
  forall ac bits out res,
    0 <= bits ->
    Acc.decode_loop R p s ac bits out = Some res ->
    8 * Z.of_nat (List.length res)
    <= 8 * Z.of_nat (List.length out) + bits + 6 * Z.of_nat (List.length s)
    /\ (bytes out -> bytes res).
Proof.
  induction s as [| c s IH]; intros ac bits out res Hbits H;
    cbn [Acc.decode_loop] in H.
  - destruct (Z.land ac (u32 (Z.shiftl 1 bits - 1)) =? 0); [| discriminate].
    inversion H; subst. cbn [List.length]. split; [lia | auto].
  - destruct (p && (c =? PAD)).
    + destruct (Z.leb_spec 8 (bits + 6)) as [Hge | Hlt];
        apply IH in H; try lia; destruct H as [H Hb];
        (split; [cbn [List.length]; lia | exact Hb]).
    + destruct (rev_at R c =? -1); [discriminate |].
      destruct (Z.leb_spec 8 (bits + 6)) as [Hge | Hlt];
        apply IH in H; try lia; destruct H as [H Hb].
      * rewrite length_app in H. cbn [List.length] in *.
        split; [lia |].
        intros Ho. apply Hb. apply Forall_app. split; [exact Ho |].
        constructor; [apply u8_byte | constructor].
      * split; [cbn [List.length]; lia | exact Hb].
Qed.

(** X10. When either decoder succeeds on [n] characters it returns at most
    [3 * n / 4] elements, each of them a byte, whatever the padding flag. *)
Theorem decode_output_bound (s : list Z) (padding : bool)
    (variant : base64_variant) (dst : list Z) :
  Grp.base64_decode s padding variant = Some dst
  \/ Acc.base64_decode s padding variant = Some dst ->
  4 * Z.of_nat (List.length dst) <= 3 * Z.of_nat (List.length s)
  /\ bytes dst.
Proof.
  intros H.
  assert (HA : Acc.base64_decode s padding variant = Some dst).
  { destruct H as [H | H]; [apply Grp_decode_refines |]; exact H. }
  unfold Acc.base64_decode in HA.
  apply Acc_out_bound in HA; [| lia].
  destruct HA as [Hlen Hb]. cbn [List.length] in Hlen.
  split; [lia | apply Hb; constructor].
Qed.

Lemma decode_output_bound_witness :
  (Grp.base64_decode (chars "Zm9vYg==") true BASE64_STD = Some (chars "foob")
   \/ Acc.base64_decode (chars "Zm9vYg==") true BASE64_STD
      = Some (chars "foob"))
  /\ 4 * Z.of_nat (List.length (chars "foob"))
     <= 3 * Z.of_nat (List.length (chars "Zm9vYg=="))
  /\ bytes (chars "foob").
Proof.
  assert (H : Grp.base64_decode (chars "Zm9vYg==") true BASE64_STD
              = Some (chars "foob")
              \/ Acc.base64_decode (chars "Zm9vYg==") true BASE64_STD
                 = Some (chars "foob"))
    by (left; vm_compute; reflexivity).
  split; [exact H |].
  exact (decode_output_bound (chars "Zm9vYg==") true BASE64_STD
           (chars "foob") H).
Defined.

(** ** Decoding in pieces *)

Lemma Grp_tail_acc (R : list Z) (p : bool) (n : Z) (s out : list Z) :
  Grp.decode_tail R p n s out
  = option_map (app out) (Grp.decode_tail R p n s []).
Proof.
  unfold Grp.decode_tail.
  destruct (n =? 0); [cbn; rewrite app_nil_r; reflexivity |].
  destruct (p || (n =? 1)); [reflexivity |].
  destruct (n =? 2).
  - destruct (Z.land _ 0x800003ff =? 0); reflexivity.
  - destruct (Z.land _ 0x80000003 =? 0); [| reflexivity].
    cbn [option_map app]. rewrite <- app_assoc. reflexivity.
Qed.

Lemma Grp_loop_acc (R : list Z) (p : bool) (s : list Z) :
  forall out,
    Grp.decode_loop R p s out
    = option_map (app out) (Grp.decode_loop R p s []).
Proof.
  induction s as [| x | x y | x y z | x y z w l IH] using list_ind4;
    intros out; try apply Grp_tail_acc.
  rewrite !Grp_loop_group. cbv zeta.
  destruct (val4 (rev_at R x) (rev_at R y) (rev_at R z) (rev_at R w) <? 0).
  - destruct (negb p || _ || _); [reflexivity | apply Grp_tail_acc].
  - rewrite IH. rewrite (IH ([] ++ _)).
    destruct (Grp.decode_loop R p l []); [| reflexivity].
    cbn [option_map app]. rewrite <- app_assoc. reflexivity.
Qed.

Lemma Grp_decode_app_loop (R : list Z) (p : bool) (s1 s2 : list Z) :
  forall out res,
    Z.of_nat (List.length s1) mod 4 = 0 ->
    Grp.decode_loop R false s1 out = Some res ->
    Grp.decode_loop R p (s1 ++ s2) out = Grp.decode_loop R p s2 res.
Proof.
  induction s1 as [| x | x y | x y z | x y z w l IH] using list_ind4;
    intros out res Hlen H; try (cbn in Hlen; lia).
  - cbn in H. inversion H; subst. reflexivity.
  - assert (Hl : Z.of_nat (List.length l) mod 4 = 0)
      by (cbn [List.length] in Hlen; zdiv).
    cbn [app]. rewrite Grp_loop_group in *. cbv zeta in *.
    destruct (val4 (rev_at R x) (rev_at R y) (rev_at R z) (rev_at R w) <? 0);
      [discriminate |].
    apply IH; assumption.
Qed.

(** X11. An input cut after a multiple of 4 characters can be decoded piece
    by piece by the grouped decoder: if the first piece decodes without
    padding to [dst1], the whole decodes to [dst1] followed by what the
    second piece decodes to, and fails when the second piece fails. *)
Theorem Grp_decode_app (s1 s2 : list Z) (padding : bool)
    (variant : base64_variant) (dst1 : list Z) :
  Z.of_nat (List.length s1) mod 4 = 0 ->
  Grp.base64_decode s1 false variant = Some dst1 ->
  Grp.base64_decode (s1 ++ s2) padding variant
  = option_map (app dst1) (Grp.base64_decode s2 padding variant).
Proof.
  intros Hlen H. unfold Grp.base64_decode in *.
  rewrite (Grp_decode_app_loop _ padding s1 s2 [] dst1 Hlen H).
  apply Grp_loop_acc.
Qed.

Lemma Grp_decode_app_witness :
  (Z.of_nat (List.length (chars "Zm9v")) mod 4 = 0
   /\ Grp.base64_decode (chars "Zm9v") false BASE64_STD = Some (chars "foo"))
  /\ Grp.base64_decode (chars "Zm9v" ++ chars "Yg==") true BASE64_STD
     = option_map (app (chars "foo"))
         (Grp.base64_decode (chars "Yg==") true BASE64_STD).
Proof.
  assert (H1 : Z.of_nat (List.length (chars "Zm9v")) mod 4 = 0)
    by reflexivity.
  assert (H2 : Grp.base64_decode (chars "Zm9v") false BASE64_STD
               = Some (chars "foo")) by (vm_compute; reflexivity).
  split; [auto |].
  exact (Grp_decode_app (chars "Zm9v") (chars "Yg==") true BASE64_STD
           (chars "foo") H1 H2).
Defined.

(** ** Encoding with one padding flag, decoding with the other *)

Lemma encode_unpadded_no_pad (src : list Z) (v : base64_variant) :
  bytes src -> ~ In PAD (Grp.base64_encode src false v).
Proof.
  intros Hb Hin.
  pose proof (Grp_encode_alphabet v src Hb) as HA.
  rewrite Forall_forall in HA. destruct (HA PAD Hin) as (i & Hi & E).
  exact (forward_not_pad v i Hi E).
Qed.

Lemma encode_padded_has_pad (src : list Z) (v : base64_variant) :
  Z.of_nat (List.length src) mod 3 <> 0 ->
  In PAD (Grp.base64_encode src true v).
Proof.
  intros Hlen. unfold Grp.base64_encode. rewrite Grp_encode_padding.
  apply in_or_app. right.
  destruct (pad_count (Z.of_nat (List.length src))) as [| k] eqn:E.
  - exfalso. unfold pad_count in E. zdiv.
  - left. reflexivity.
Qed.

(** X12. What happens when the padding flags of encoder and decoder differ,
    for a source whose length is not a multiple of 3.  Unpadded output read
    with padding enabled: the accumulator decoder returns the source, the
    grouped decoder fails.  Padded output read with padding disabled: both
    decoders fail. *)
Theorem decode_other_flag (src : list Z) (variant : base64_variant) :
  bytes src ->
  Z.of_nat (List.length src) mod 3 <> 0 ->
  Acc.base64_decode (Acc.base64_encode src false variant) true variant
    = Some src
  /\ Grp.base64_decode (Grp.base64_encode src false variant) true variant
    = None
  /\ Grp.base64_decode (Grp.base64_encode src true variant) false variant
    = None
  /\ Acc.base64_decode (Acc.base64_encode src true variant) false variant
    = None.
Proof.
  intros Hb Hlen. rewrite !Acc_encode_is_Grp by exact Hb.
  split; [| split].
  - unfold Acc.base64_decode.
    rewrite Acc_flag_no_pad by (apply encode_unpadded_no_pad; exact Hb).
    apply Grp_decode_refines. apply Grp_roundtrip_unpadded. exact Hb.
  - unfold Grp.base64_decode. apply Grp_padded_length; try tables.
    unfold Grp.base64_encode. rewrite Grp_encode_length.
    unfold encoded_length, ceil_div. zdiv.
  - apply (decode_stray _ false variant PAD).
    + apply encode_padded_has_pad. exact Hlen.
    + split; [apply rev_pad | left; reflexivity].
Qed.

Lemma decode_other_flag_witness :
  (bytes (chars "foob") /\ Z.of_nat (List.length (chars "foob")) mod 3 <> 0)
  /\ Acc.base64_decode (Acc.base64_encode (chars "foob") false BASE64_STD)
       true BASE64_STD = Some (chars "foob")
  /\ Grp.base64_decode (Grp.base64_encode (chars "foob") false BASE64_STD)
       true BASE64_STD = None
  /\ Grp.base64_decode (Grp.base64_encode (chars "foob") true BASE64_STD)
       false BASE64_STD = None
  /\ Acc.base64_decode (Acc.base64_encode (chars "foob") true BASE64_STD)
       false BASE64_STD = None.
Proof.
  assert (H1 : bytes (chars "foob"))
    by (apply bytes_chars_check; vm_compute; reflexivity).
  assert (H2 : Z.of_nat (List.length (chars "foob")) mod 3 <> 0)
    by (vm_compute; discriminate).
  split; [auto |].
  exact (decode_other_flag (chars "foob") BASE64_STD H1 H2).
Defined.

(** X13. The input length of a successful grouped decode is fixed by the
    number of bytes returned: [4 * ceil (m / 3)] characters with padding
    and [ceil (8 * m / 6)] without, for [m] bytes. *)
Theorem Grp_decode_length (s : list Z) (padding : bool)
    (variant : base64_variant) (dst : list Z) :
  Grp.base64_decode s padding variant = Some dst ->
  Z.of_nat (List.length s)
  = if padding
    then 4 * ceil_div (Z.of_nat (List.length dst)) 3
    else ceil_div (Z.of_nat (List.length dst) * 8) 6.
Proof.
  intros H. unfold Grp.base64_decode in H.
  apply Grp_canonical_loop in H. destruct H as (d & E & _ & Henc).
  cbn [app] in E. subst d. rewrite <- Henc at 1.
  apply Grp_encode_length.
Qed.

Lemma Grp_decode_length_witness :
  Grp.base64_decode (chars "Zm9vYg==") true BASE64_STD = Some (chars "foob")
  /\ Z.of_nat (List.length (chars "Zm9vYg=="))
     = 4 * ceil_div (Z.of_nat (List.length (chars "foob"))) 3.
Proof.
  assert (H : Grp.base64_decode (chars "Zm9vYg==") true BASE64_STD
              = Some (chars "foob")) by (vm_compute; reflexivity).
  split; [exact H |].
  exact (Grp_decode_length (chars "Zm9vYg==") true BASE64_STD
           (chars "foob") H).
Defined.

(** ** Two and three leftover symbols without padding *)

Lemma leftover_tail_length (s tail : list Z) (k : Z) :
  Z.of_nat (List.length s) mod 4 = 0 ->
  Z.of_nat (List.length tail) = k -> 2 <= k <= 3 ->
  Z.of_nat (List.length (s ++ tail)) mod 4 <> 1.
Proof.
  intros Hs Ht Hk. rewrite length_app, Nat2Z.inj_add, Ht. zdiv.
Qed.

(** X14. Without padding, after full groups that decode to [dst], two
    further symbols whose last four bits are zero give exactly one more
    byte, and three further symbols whose last two bits are zero give
    exactly two more bytes; in both revisions. *)
Theorem leftover_symbols_decoded (s : list Z) (a b c : Z)
    (variant : base64_variant) (dst : list Z) :
  let r := rev_at (base64_rev_maps variant) in
  Z.of_nat (List.length s) mod 4 = 0 ->
  Grp.base64_decode s false variant = Some dst ->
  0 <= r a -> 0 <= r b ->
  (Z.land (r b) 0xf = 0 ->
   Grp.base64_decode (s ++ [a; b]) false variant
     = Some (dst ++ [by0 (r a) (r b)])
   /\ Acc.base64_decode (s ++ [a; b]) false variant
     = Some (dst ++ [by0 (r a) (r b)]))
  /\ (0 <= r c -> Z.land (r c) 0x3 = 0 ->
      Grp.base64_decode (s ++ [a; b; c]) false variant
        = Some (dst ++ [by0 (r a) (r b); by1 (r b) (r c)])
      /\ Acc.base64_decode (s ++ [a; b; c]) false variant
        = Some (dst ++ [by0 (r a) (r b); by1 (r b) (r c)])).
Proof.
  intros r Hlen H Ha Hb. subst r. split.
  - intros Hf. rewrite land_15 in Hf.
    assert (HG : Grp.base64_decode (s ++ [a; b]) false variant
                 = Some (dst ++ [by0 (rev_at (base64_rev_maps variant) a)
                                    (rev_at (base64_rev_maps variant) b)])).
    { unfold Grp.base64_decode in *.
      rewrite (Grp_decode_app_loop _ false s [a; b] [] dst Hlen H).
      rewrite Grp_loop_2, Grp_tail2 by tables.
      apply tail2_ok; try apply sextet_valid; assumption. }
    split; [exact HG |].
    rewrite decode_unpadded_agree; [exact HG |].
    apply (leftover_tail_length s [a; b] 2); [exact Hlen | reflexivity | lia].
  - intros Hc Hf. rewrite land_3 in Hf.
    assert (HG : Grp.base64_decode (s ++ [a; b; c]) false variant
                 = Some (dst ++ [by0 (rev_at (base64_rev_maps variant) a)
                                    (rev_at (base64_rev_maps variant) b);
                                 by1 (rev_at (base64_rev_maps variant) b)
                                    (rev_at (base64_rev_maps variant) c)])).
    { unfold Grp.base64_decode in *.
      rewrite (Grp_decode_app_loop _ false s [a; b; c] [] dst Hlen H).
      rewrite Grp_loop_3, Grp_tail3 by tables.
      apply tail3_ok; try apply sextet_valid; assumption. }
    split; [exact HG |].
    rewrite decode_unpadded_agree; [exact HG |].
    apply (leftover_tail_length s [a; b; c] 3);
      [exact Hlen | reflexivity | lia].
Qed.

Lemma leftover_symbols_decoded_witness :
  Grp.base64_decode (chars "Zm9vYg") false BASE64_STD = Some (chars "foob")
  /\ Acc.base64_decode (chars "Zm9vYg") false BASE64_STD = Some (chars "foob").
Proof.
  assert (H1 : Z.of_nat (List.length (chars "Zm9v")) mod 4 = 0)
    by reflexivity.
  assert (H2 : Grp.base64_decode (chars "Zm9v") false BASE64_STD
               = Some (chars "foo")) by (vm_compute; reflexivity).
  assert (Ha : 0 <= rev_at (base64_rev_maps BASE64_STD) 89)
    by (vm_compute; discriminate).
  assert (Hb : 0 <= rev_at (base64_rev_maps BASE64_STD) 103)
    by (vm_compute; discriminate).
  assert (Hf : Z.land (rev_at (base64_rev_maps BASE64_STD) 103) 0xf = 0)
    by reflexivity.
  exact (proj1 (leftover_symbols_decoded (chars "Zm9v") 89 103 0 BASE64_STD
                  (chars "foo") H1 H2 Ha Hb) Hf).
Defined.
